(** * homekit-steam-user-switcher: a shallow embedding and its properties

    The development follows [homekit_steam_user_switcher.py]:

    - the Steam helpers [get_account] / [set_account] (a read-modify-write of
      one leaf of [registry.vdf]);
    - the handler hooks [on_power_changed] / [on_input_changed];
    - the [TelevisionAccessory] callbacks [set_active], [_restore_power] and
      [set_active_identifier], run on an explicit model of the asyncio timer
      queue ([call_later], [cancel]);
    - the catalogue of inputs built by the [__main__] block.

    Python exceptions are values of [exn] threaded through the [result]
    monad; the file system, the timer queue and the log of observable
    effects are passed explicitly in a [world].

    What lies outside the source is kept abstract or made explicit:
    - the [vdf] package is a parameter ([VdfCodec]); [VdfText] is one
      instance, used where a statement needs actual file contents;
    - the outcome of a write to disk is an argument ([io_outcome]);
    - time is counted in whole time units, and [call_later] always returns
      a handle;
    - the HomeKit services and characteristics set up by [__init__] appear
      only as the [set_value] calls the code itself makes. *)

From Stdlib Require Import ZArith Lia Ascii.
From stdpp Require Import base option list strings gmap.

Local Open Scope Z_scope.
Local Set Warnings "-register-all".

(** ** Python preliminaries *)

(** The exception classes the modelled code can raise. All of them derive
    from [Exception], so an [except Exception:] clause catches each one. *)
Inductive exn :=
  | FileNotFoundError
  | OSError
  | SyntaxError
  | KeyError (key : string)
  | TypeError
  | RuntimeError (msg : string).

Inductive result (A : Type) :=
  | Ok (a : A)
  | Raise (e : exn).
Arguments Ok {A} a.
Arguments Raise {A} e.

#[export] Instance result_ret : MRet result := @Ok.
#[export] Instance result_bind : MBind result := λ A B f m,
  match m with
  | Ok a => f a
  | Raise e => Raise e
  end.

(** A Python [dict] with string keys, kept in insertion order.
    [dict_get] is [d.get(k)] / the lookup behind [d[k]]; [dict_set] is
    [d[k] = v]: an existing key keeps its position, a new key goes last. *)
Fixpoint dict_get {A} (k : string) (d : list (string * A)) : option A :=
  match d with
  | [] => None
  | (k', v) :: rest => if decide (k' = k) then Some v else dict_get k rest
  end.

Fixpoint dict_set {A} (k : string) (v : A) (d : list (string * A)) : list (string * A) :=
  match d with
  | [] => [(k, v)]
  | (k', v') :: rest =>
      if decide (k' = k) then (k, v) :: rest else (k', v') :: dict_set k v rest
  end.

(** Truthiness of [d.get(k)] for a field holding a [str]: [None] and the
    empty string are falsy. *)
Definition truthy (o : option string) : bool :=
  match o with
  | Some s => negb (String.eqb s "")
  | None => false
  end.

(** ** The VDF tree and its codec *)

(** What [vdf.load] returns: nested dicts whose leaves are strings. *)
Inductive vdf :=
  | VStr (s : string)
  | VDict (d : list (string * vdf)).

Abbreviation vdict := (list (string * vdf)).

(** Modelled from the spec: the parser and serializer of the configuration
    format (the [vdf] package the source imports; section 1 of the spec
    takes it as a given capability, parse(text) -> tree and
    serialize(tree) -> text). [vdf_load] is [None] where [vdf.load] raises
    [SyntaxError]; [vdf_dump d] is the whole text [vdf.dump(d, f,
    pretty=True)] writes. *)
Class VdfCodec := {
  vdf_load : string → option vdict;
  vdf_dump : vdict → string;
}.

(** ** Files *)

(** The files, by path. A path that is not a key does not exist. *)
Abbreviation filesystem := (gmap string string).

Definition REGISTRY : string := "~/.steam/registry.vdf".

(** How the operating system answers one write-back: the file is opened
    with mode ['w'] (which truncates it) and the text is written through.
    [IoOpenFails]: [open] raises, the file is untouched. [IoWriteFails n]:
    the file was truncated, [n] characters reached it, then a write (or the
    flush on close) raised. *)
Inductive io_outcome :=
  | IoOk
  | IoOpenFails
  | IoWriteFails (n : nat).

Definition write_text (path text : string) (io : io_outcome) (fs : filesystem)
  : result unit * filesystem :=
  match io with
  | IoOk => (Ok tt, <[path := text]> fs)
  | IoOpenFails => (Raise OSError, fs)
  | IoWriteFails n => (Raise OSError, <[path := String.substring 0 n text]> fs)
  end.

(** ** Steam helpers *)

(** [d[k1][k2]...[kn]] read from a node: a missing key raises [KeyError],
    subscripting a [str] with a string raises [TypeError]. *)
Fixpoint getitem_path (path : list string) (node : vdf) : result vdf :=
  match path with
  | [] => Ok node
  | k :: ks =>
      match node with
      | VStr _ => Raise TypeError
      | VDict d =>
          match dict_get k d with
          | None => Raise (KeyError k)
          | Some child => getitem_path ks child
          end
      end
  end.

(** [d[k1]...[kn][leaf] = v]. Python mutates the innermost dict in place and
    every enclosing dict sees it through the shared reference; here the
    spine is rebuilt, each dict keeping its keys and their order. *)
Fixpoint setitem_path (path : list string) (leaf : string) (v : vdf) (d : vdict)
  : result vdict :=
  match path with
  | [] => Ok (dict_set leaf v d)
  | k :: ks =>
      match dict_get k d with
      | None => Raise (KeyError k)
      | Some (VStr _) => Raise TypeError
      | Some (VDict child) =>
          child' ← setitem_path ks leaf v child;
          Ok (dict_set k (VDict child') d)
      end
  end.

Definition STEAM_KEY : list string := ["Registry"; "HKCU"; "Software"; "Valve"; "Steam"].
Definition AUTO_LOGIN_USER : string := "AutoLoginUser".

Section Steam.
Context `{codec : VdfCodec}.

(** [with open(path, 'r') as f: return vdf.load(f)] *)
Definition load_file (path : string) (fs : filesystem) : result vdict :=
  match fs !! path with
  | None => Raise FileNotFoundError
  | Some text =>
      match vdf_load text with
      | None => Raise SyntaxError
      | Some d => Ok d
      end
  end.

Definition get_account (fs : filesystem) : result vdf :=
  registry ← load_file REGISTRY fs;
  getitem_path (STEAM_KEY ++ [AUTO_LOGIN_USER]) (VDict registry).

Definition set_account (account : string) (io : io_outcome) (fs : filesystem)
  : result unit * filesystem :=
  match load_file REGISTRY fs with
  | Raise e => (Raise e, fs)
  | Ok registry =>
      match setitem_path STEAM_KEY AUTO_LOGIN_USER (VStr account) registry with
      | Raise e => (Raise e, fs)
      | Ok registry' => write_text REGISTRY (vdf_dump registry') io fs
      end
  end.
End Steam.

(** ** Observable effects *)

(** What the program does to the outside world, in order: each entry of a
    handler hook, the [killall steam] it spawns, and each value the code
    itself pushes to a HomeKit characteristic with [set_value]. *)
Inductive effect :=
  | PowerChanged (is_on : bool)
  | KillallSteam
  | InputChanged (identifier : Z) (label slug : string)
  | CharSetValue (char_name : string) (value : Z).

(** ** The event loop's timers *)

Inductive callback :=
  | RestorePower.

(** An [asyncio.TimerHandle]: [cancel()] only marks it; the loop drops it,
    without running it, once it is due. *)
Record TimerHandle := {
  h_id : nat;
  h_when : Z;
  h_callback : callback;
  h_cancelled : bool;
}.

Record event_loop := {
  loop_time : Z;
  loop_scheduled : list TimerHandle;
  loop_next_id : nat;
}.

Definition new_event_loop (t0 : Z) : event_loop :=
  {| loop_time := t0; loop_scheduled := []; loop_next_id := 0 |}.

(** [loop.call_later(delay, cb)]: the handle returned is the timer's id. *)
Definition call_later (delay : Z) (cb : callback) (l : event_loop) : nat * event_loop :=
  let h := {| h_id := loop_next_id l; h_when := loop_time l + delay;
              h_callback := cb; h_cancelled := false |} in
  (loop_next_id l,
   {| loop_time := loop_time l;
      loop_scheduled := loop_scheduled l ++ [h];
      loop_next_id := S (loop_next_id l) |}).

Definition mark_cancelled (id : nat) (h : TimerHandle) : TimerHandle :=
  if decide (h_id h = id)
  then {| h_id := h_id h; h_when := h_when h;
          h_callback := h_callback h; h_cancelled := true |}
  else h.

(** [handle.cancel()]: a no-op on a handle that already ran. *)
Definition cancel (id : nat) (l : event_loop) : event_loop :=
  {| loop_time := loop_time l;
     loop_scheduled := mark_cancelled id <$> loop_scheduled l;
     loop_next_id := loop_next_id l |}.

(** The timer the loop pops next: the least [h_when], the first scheduled
    among equals. *)
Fixpoint earliest (hs : list TimerHandle) : option TimerHandle :=
  match hs with
  | [] => None
  | h :: rest =>
      match earliest rest with
      | Some h' => if h_when h' <? h_when h then Some h' else Some h
      | None => Some h
      end
  end.

Definition unschedule (id : nat) (l : event_loop) (t : Z) : event_loop :=
  {| loop_time := Z.max (loop_time l) t;
     loop_scheduled := filter (λ h, h_id h ≠ id) (loop_scheduled l);
     loop_next_id := loop_next_id l |}.

(** Timers whose owner has not cancelled them. *)
Definition outstanding (l : event_loop) : list TimerHandle :=
  filter (λ h, h_cancelled h = false) (loop_scheduled l).

(** ** The accessory *)

(** One input: [(identifier, label, slug)]. *)
Definition input : Type := Z * string * string.

Definition input_id (it : input) : Z := it.1.1.
Definition input_label (it : input) : string := it.1.2.
Definition input_slug (it : input) : string := it.2.

(** The fields of [TelevisionAccessory] the callbacks read and write. *)
Record TelevisionAccessory := {
  inputs : list input;
  id_to_label : gmap Z string;
  id_to_slug : gmap Z string;
  active_identifier : Z;
  is_active : Z;
  _power_restore_handle : option nat;
}.

(** [{i: label for i, label, _ in input_items}]: a later item overrides an
    earlier one with the same identifier. *)
Definition label_dict (input_items : list input) : gmap Z string :=
  foldl (λ m it, <[input_id it := input_label it]> m) ∅ input_items.

Definition slug_dict (input_items : list input) : gmap Z string :=
  foldl (λ m it, <[input_id it := input_slug it]> m) ∅ input_items.

Record world := {
  w_tv : TelevisionAccessory;
  w_loop : event_loop;
  w_files : filesystem;
  w_trace : list effect;
}.

Definition with_tv (f : TelevisionAccessory → TelevisionAccessory) (w : world) : world :=
  {| w_tv := f (w_tv w); w_loop := w_loop w; w_files := w_files w; w_trace := w_trace w |}.

Definition with_loop (f : event_loop → event_loop) (w : world) : world :=
  {| w_tv := w_tv w; w_loop := f (w_loop w); w_files := w_files w; w_trace := w_trace w |}.

Definition with_files (files : filesystem) (w : world) : world :=
  {| w_tv := w_tv w; w_loop := w_loop w; w_files := files; w_trace := w_trace w |}.

Definition emit (e : effect) (w : world) : world :=
  {| w_tv := w_tv w; w_loop := w_loop w; w_files := w_files w; w_trace := w_trace w ++ [e] |}.

Definition set_is_active (v : Z) (a : TelevisionAccessory) : TelevisionAccessory :=
  {| inputs := inputs a; id_to_label := id_to_label a; id_to_slug := id_to_slug a;
     active_identifier := active_identifier a; is_active := v;
     _power_restore_handle := _power_restore_handle a |}.

Definition set_handle (h : option nat) (a : TelevisionAccessory) : TelevisionAccessory :=
  {| inputs := inputs a; id_to_label := id_to_label a; id_to_slug := id_to_slug a;
     active_identifier := active_identifier a; is_active := is_active a;
     _power_restore_handle := h |}.

Definition set_identifier (v : Z) (a : TelevisionAccessory) : TelevisionAccessory :=
  {| inputs := inputs a; id_to_label := id_to_label a; id_to_slug := id_to_slug a;
     active_identifier := v; is_active := is_active a;
     _power_restore_handle := _power_restore_handle a |}.

(** The delay of [call_later(2.0, self._restore_power)], in time units. *)
Definition RESTORE_DELAY : Z := 2.

(** *** Handler hooks *)

(** [subprocess.run] sits in a [try] whose [except Exception] only logs, so
    nothing escapes whether or not [killall] could be started. *)
Definition on_power_changed (is_on : bool) (w : world) : world :=
  let w := emit (PowerChanged is_on) w in
  if negb is_on then emit KillallSteam w else w.

Section Accessory.
Context `{codec : VdfCodec}.

Definition on_input_changed (identifier : Z) (label slug : string)
    (io : io_outcome) (w : world) : result unit * world :=
  let w := emit (InputChanged identifier label slug) w in
  let '(r, files) := set_account slug io (w_files w) in
  match r with
  | Ok _ => (Ok tt, with_files files w)
  | Raise _ => (Ok tt, with_files files w)   (* except Exception: logged *)
  end.

(** *** [TelevisionAccessory] *)

(** [__init__], with the two [set_value] calls that close it. *)
Definition TelevisionAccessory_init (input_items : list input)
    (initial_identifier : option Z) : TelevisionAccessory * list effect :=
  let active :=
    match initial_identifier with
    | Some i => i
    | None =>
        match input_items with
        | it :: _ => input_id it
        | [] => 0
        end
    end in
  ({| inputs := input_items;
      id_to_label := label_dict input_items;
      id_to_slug := slug_dict input_items;
      active_identifier := active;
      is_active := 0;
      _power_restore_handle := None |},
   [CharSetValue "Active" 0; CharSetValue "ActiveIdentifier" active]).

Definition _restore_power (w : world) : world :=
  let w := with_tv (set_handle None) w in
  let w := with_tv (set_is_active 1) w in
  let w := emit (CharSetValue "Active" 1) w in
  on_power_changed true w.

Definition cancel_restore (w : world) : world :=
  match _power_restore_handle (w_tv w) with
  | Some h => with_loop (cancel h) w
  | None => w
  end.

Definition set_active (value : Z) (w : world) : world :=
  let w :=
    if decide (value = 1)
    then
      match _power_restore_handle (w_tv w) with
      | Some h => with_tv (set_handle None) (with_loop (cancel h) w)
      | None => w
      end
    else w in
  let w := with_tv (set_is_active value) w in
  let w := on_power_changed (bool_decide (value = 1)) w in
  if decide (value = 0)
  then
    let w := cancel_restore w in
    let '(h, l) := call_later RESTORE_DELAY RestorePower (w_loop w) in
    with_tv (set_handle (Some h)) (with_loop (λ _, l) w)
  else w.

Definition set_active_identifier (value : Z) (io : io_outcome) (w : world)
  : result unit * world :=
  let w := with_tv (set_identifier value) w in
  let label := default "Unknown" (id_to_label (w_tv w) !! value) in
  let slug := default "-" (id_to_slug (w_tv w) !! value) in
  on_input_changed value label slug io w.

(** *** Running the loop *)

Definition run_callback (cb : callback) (w : world) : world :=
  match cb with
  | RestorePower => _restore_power w
  end.

(** One iteration of the loop with the clock at [target]: pop the next
    timer if it is due, and run it unless it was cancelled. *)
Definition run_next (target : Z) (w : world) : option world :=
  match earliest (loop_scheduled (w_loop w)) with
  | Some h =>
      if h_when h <=? target
      then
        let w := with_loop (λ l, unschedule (h_id h) l (h_when h)) w in
        Some (if h_cancelled h then w else run_callback (h_callback h) w)
      else None
  | None => None
  end.

Fixpoint run_until (fuel : nat) (target : Z) (w : world) : world :=
  match fuel with
  | O => w
  | S fuel =>
      match run_next target w with
      | Some w' => run_until fuel target w'
      | None => w
      end
  end.

Definition set_time (t : Z) (l : event_loop) : event_loop :=
  {| loop_time := t; loop_scheduled := loop_scheduled l; loop_next_id := loop_next_id l |}.

(** Let [dt] time units pass with no call from the driver. No callback
    schedules a timer, so one iteration per scheduled timer is enough
    (see [advance_runs_every_due_timer]). *)
Definition advance (dt : Z) (w : world) : world :=
  let target := loop_time (w_loop w) + dt in
  let w := run_until (length (loop_scheduled (w_loop w))) target w in
  with_loop (set_time target) w.

(** [run(...)]: the accessory is built on a fresh loop. *)
Definition boot (input_items : list input) (initial_identifier : option Z)
    (t0 : Z) (files : filesystem) : world :=
  let '(a, effects) := TelevisionAccessory_init input_items initial_identifier in
  {| w_tv := a; w_loop := new_event_loop t0; w_files := files; w_trace := effects |}.

(** The worlds the program can be in: after start-up, after a setter the
    driver calls, after time passes, after another process (Steam itself)
    rewrote the files. *)
Inductive reachable : world → Prop :=
  | reach_boot input_items initial_identifier t0 files :
      reachable (boot input_items initial_identifier t0 files)
  | reach_set_active value w :
      reachable w → reachable (set_active value w)
  | reach_set_active_identifier value io w :
      reachable w → reachable (set_active_identifier value io w).2
  | reach_advance dt w :
      0 ≤ dt → reachable w → reachable (advance dt w)
  | reach_files files w :
      reachable w → reachable (with_files files w).
End Accessory.

(** ** The input catalogue ([__main__]) *)

(** One record of [loginusers.vdf] as [get_accounts()] hands it over: a dict
    from field names to strings (the source's comment: "Each entry is a dict
    with AccountName and PersonaName"). *)
Abbreviation account_record := (list (string * string)).

(** [persona or acc_name], for a truthy [acc_name]. *)
Definition persona_or (persona : option string) (acc_name : string) : string :=
  if truthy persona then default acc_name persona else acc_name.

(** The body of [for idx, account in enumerate(accounts.values(), start=1)]:
    [idx] is the counter [enumerate] is at, [items] the list built so far.
    [continue] moves on to the next pair, counter included. *)
Fixpoint build_items (idx : Z) (accounts : list account_record) (items : list input)
  : list input :=
  match accounts with
  | [] => items
  | account :: rest =>
      let acc_name := dict_get "AccountName" account in
      let persona := dict_get "PersonaName" account in
      if negb (truthy acc_name)
      then build_items (idx + 1) rest items
      else
        let label := persona_or persona (default "" acc_name) in
        let slug := default "" acc_name in
        build_items (idx + 1) rest (items ++ [(idx, label, slug)])
  end.

(** [slug == current], a [str] against what [get_account()] returned. *)
Definition slug_equals (slug : string) (current : vdf) : bool :=
  match current with
  | VStr s => bool_decide (slug = s)
  | VDict _ => false
  end.

(** [for i, _, slug in items: if slug == current: initial_identifier = i; break] *)
Fixpoint match_current (current : vdf) (items : list input) : option Z :=
  match items with
  | [] => None
  | it :: rest =>
      if slug_equals (input_slug it) current
      then Some (input_id it)
      else match_current current rest
  end.

Definition FALLBACK_INPUTS : list input :=
  [(1, "Steam User 1", "user1"); (2, "Steam User 2", "user2")].

(** [enumerate(l, start)] *)
Fixpoint enumerate {A} (start : Z) (l : list A) : list (Z * A) :=
  match l with
  | [] => []
  | x :: rest => (start, x) :: enumerate (start + 1) rest
  end.

(** The [--inputs] branch, from the stripped non-empty [labels] on;
    [slugify] stands for [_slugify_label]. *)
Definition override_inputs (slugify : string → string) (labels : list string)
  : list input :=
  (λ p, (p.1, p.2, slugify p.2)) <$> enumerate 1 labels.

Section Catalogue.
Context `{codec : VdfCodec}.

(** The inner [try]: a failing [get_account()] leaves
    [initial_identifier] at [None]. *)
Definition resolve_initial (items : list input) (files : filesystem) : option Z :=
  match get_account files with
  | Ok current => match_current current items
  | Raise _ => None
  end.

(** The outer [try] of the Steam branch; [accounts] is the outcome of
    [get_accounts()], records in file order. *)
Definition try_steam_inputs (accounts : result (list (string * account_record)))
    (files : filesystem) : result (list input * option Z) :=
  accounts ← accounts;
  let items := build_items 1 accounts.*2 [] in
  match items with
  | [] => Raise (RuntimeError "No Steam accounts found in loginusers.vdf")
  | _ :: _ => Ok (items, resolve_initial items files)
  end.

(** [(resolved_items, initial_identifier)] of the Steam branch. *)
Definition steam_inputs (accounts : result (list (string * account_record)))
    (files : filesystem) : list input * option Z :=
  match try_steam_inputs accounts files with
  | Ok r => r
  | Raise _ => (FALLBACK_INPUTS, None)
  end.
End Catalogue.

(** ** A concrete codec *)

(** Modelled from the spec: one parser/serializer pair for the textual
    format, standing in for the [vdf] package wherever a statement needs
    actual file contents. [dump] prints the tree the way
    [vdf.dump(..., pretty=True)] lays it out (quoted keys and values, one
    tab of indentation per level, braces on lines of their own); [load]
    reads quoted strings and braces back, and rejects anything else. *)
Module VdfText.
Definition quote : ascii := "034"%char.
Definition backslash : ascii := "092"%char.
Definition newline : ascii := "010"%char.
Definition tab : ascii := "009"%char.

Definition nl : string := String newline EmptyString.
Definition dq : string := String quote EmptyString.

Fixpoint escape (s : string) : string :=
  match s with
  | EmptyString => EmptyString
  | String c rest =>
      if decide (c = quote) then String backslash (String quote (escape rest))
      else if decide (c = backslash) then String backslash (String backslash (escape rest))
      else if decide (c = newline) then String backslash (String "n"%char (escape rest))
      else if decide (c = tab) then String backslash (String "t"%char (escape rest))
      else String c (escape rest)
  end.

Fixpoint indent (level : nat) : string :=
  match level with
  | O => EmptyString
  | S n => String tab (indent n)
  end.

Definition quoted (s : string) : string := dq +:+ escape s +:+ dq.

Fixpoint dump_item (level : nat) (key : string) (value : vdf) : string :=
  match value with
  | VStr s => indent level +:+ quoted key +:+ " " +:+ quoted s +:+ nl
  | VDict d =>
      indent level +:+ quoted key +:+ nl +:+ indent level +:+ "{" +:+ nl
      +:+ (fix dump_items (d : vdict) : string :=
             match d with
             | [] => EmptyString
             | (k, v) :: rest => dump_item (S level) k v +:+ dump_items rest
             end) d
      +:+ indent level +:+ "}" +:+ nl
  end.

Fixpoint dump (d : vdict) : string :=
  match d with
  | [] => EmptyString
  | (k, v) :: rest => dump_item 0 k v +:+ dump rest
  end.

Inductive token :=
  | TString (s : string)
  | TOpen
  | TClose.

Inductive lex_state :=
  | Outside
  | Inside (acc : list ascii)
  | Escaped (acc : list ascii).

Definition unescape (c : ascii) : ascii :=
  if decide (c = "n"%char) then newline
  else if decide (c = "t"%char) then tab
  else c.

Definition is_space (c : ascii) : bool :=
  bool_decide (c = " "%char) || bool_decide (c = tab)
  || bool_decide (c = newline) || bool_decide (c = "013"%char).

Fixpoint lex (st : lex_state) (cs : list ascii) (toks : list token)
  : option (list token) :=
  match cs with
  | [] =>
      match st with
      | Outside => Some (reverse toks)
      | _ => None
      end
  | c :: rest =>
      match st with
      | Outside =>
          if decide (c = quote) then lex (Inside []) rest toks
          else if decide (c = "{"%char) then lex Outside rest (TOpen :: toks)
          else if decide (c = "}"%char) then lex Outside rest (TClose :: toks)
          else if is_space c then lex Outside rest toks
          else None
      | Inside acc =>
          if decide (c = quote)
          then lex Outside rest (TString (String.string_of_list_ascii (reverse acc)) :: toks)
          else if decide (c = backslash) then lex (Escaped acc) rest toks
          else lex (Inside (c :: acc)) rest toks
      | Escaped acc => lex (Inside (unescape c :: acc)) rest toks
      end
  end.

(** [cur] is the dict being filled; [stack] holds the enclosing dicts,
    innermost first, each with the key its open child goes under. *)
Fixpoint parse (toks : list token) (cur : vdict) (stack : list (string * vdict))
  : option vdict :=
  match toks with
  | [] =>
      match stack with
      | [] => Some cur
      | _ :: _ => None
      end
  | TString k :: TString v :: rest => parse rest (dict_set k (VStr v) cur) stack
  | TString k :: TOpen :: rest => parse rest [] ((k, cur) :: stack)
  | TClose :: rest =>
      match stack with
      | (k, parent) :: stack' => parse rest (dict_set k (VDict cur) parent) stack'
      | [] => None
      end
  | _ => None
  end.

Definition load (text : string) : option vdict :=
  toks ← lex Outside (String.list_ascii_of_string text) [];
  parse toks [] [].

Definition codec : VdfCodec := {| vdf_load := load; vdf_dump := dump |}.
End VdfText.

(** Sample data for the closed statements below. *)
Definition sample_registry : vdict :=
  [("Registry", VDict [("HKCU", VDict [("Software", VDict [("Valve", VDict [("Steam",
      VDict [("AutoLoginUser", VStr "carol_w"); ("RememberPassword", VStr "1")])])])])]);
   ("Language", VStr "english")].

Definition sample_files : filesystem :=
  {[ REGISTRY := VdfText.dump sample_registry ]}.

Definition ten_keys_registry : vdict :=
  [("k0", VStr "v0"); ("k1", VStr "v1"); ("k2", VStr "v2"); ("k3", VStr "v3");
   ("k4", VDict [("AutoLoginUser", VStr "nested")]); ("k5", VStr "v5");
   ("k6", VStr "v6"); ("k7", VStr "v7"); ("k8", VStr "v8"); ("k9", VStr "v9");
   ("Registry", VDict [("HKCU", VDict [("Software", VDict [("Valve", VDict [("Steam",
      VDict [("AutoLoginUser", VStr "zed")])])])])])].

Definition ten_keys_files : filesystem :=
  {[ REGISTRY := VdfText.dump ten_keys_registry ]}.

(** ** Vocabulary of the statements *)

(** The path of the one leaf [set_account] writes. *)
Definition AUTO_LOGIN_PATH : list string := STEAM_KEY ++ [AUTO_LOGIN_USER].

Section Vocabulary.
Context `{codec : VdfCodec}.

(** A well-formed settings file: it exists, parses to [registry], and the
    Steam section is there (the leaf itself need not be). *)
Definition well_formed_registry (fs : filesystem) (registry : vdict) : Prop :=
  load_file REGISTRY fs = Ok registry
  ∧ ∃ steam, getitem_path STEAM_KEY (VDict registry) = Ok (VDict steam).

(** The codec reads back the tree it wrote. *)
Definition reads_back (d : vdict) : Prop := vdf_load (vdf_dump d) = Some d.

(** The codec reads back what [set_account account] writes from
    [registry]. *)
Definition write_back_readable (account : string) (registry : vdict) : Prop :=
  ∀ registry',
    setitem_path STEAM_KEY AUTO_LOGIN_USER (VStr account) registry = Ok registry' →
    reads_back registry'.
End Vocabulary.

(** The arguments of the [on_power_changed] calls in a log, in order. *)
Definition power_changes (trace : list effect) : list bool :=
  omap (λ e, match e with PowerChanged b => Some b | _ => None end) trace.

(** The invariant of the restore timer: a timer still outstanding is the
    one [_power_restore_handle] names, and a handle that is set names an
    outstanding timer; timer ids are never reused; the two lookup dicts
    are the ones [__init__] built. *)
Definition timers_owned (w : world) : Prop :=
  ∀ h, h ∈ loop_scheduled (w_loop w) → h_cancelled h = false →
       _power_restore_handle (w_tv w) = Some (h_id h).

Definition handle_pending (w : world) : Prop :=
  ∀ id, _power_restore_handle (w_tv w) = Some id →
        ∃ h, h ∈ loop_scheduled (w_loop w) ∧ h_id h = id ∧ h_cancelled h = false.

Definition timer_ids_fresh (l : event_loop) : Prop :=
  NoDup (h_id <$> loop_scheduled l)
  ∧ ∀ h, h ∈ loop_scheduled l → (h_id h < loop_next_id l)%nat.

Definition dicts_built (a : TelevisionAccessory) : Prop :=
  id_to_label a = label_dict (inputs a) ∧ id_to_slug a = slug_dict (inputs a).

Record accessory_inv (w : world) : Prop := {
  inv_owned : timers_owned w;
  inv_pending : handle_pending w;
  inv_fresh : timer_ids_fresh (w_loop w);
  inv_dicts : dicts_built (w_tv w);
}.

(** The world right after the loop dropped timer [h] from its queue. *)
Definition popped (h : TimerHandle) (w : world) : world :=
  with_loop (λ l, unschedule (h_id h) l (h_when h)) w.

(** The loop once the pending restore, if any, has been cancelled. *)
Definition restore_loop (w : world) : event_loop :=
  match _power_restore_handle (w_tv w) with
  | Some id => cancel id (w_loop w)
  | None => w_loop w
  end.

(** What one iteration of the catalogue loop appends, if anything. *)
Definition item_of (idx : Z) (account : account_record) : option input :=
  let acc_name := dict_get "AccountName" account in
  if truthy acc_name
  then Some (idx, persona_or (dict_get "PersonaName" account) (default "" acc_name),
             default "" acc_name)
  else None.

(** Two records of [loginusers.vdf], the first without an account name. *)
Definition gap_accounts : list (string * account_record) :=
  [("76561198000000001", [("PersonaName", "Ghost")]);
   ("76561198000000002", [("AccountName", "bob99"); ("PersonaName", "Bob")])].

(** The accounts of the spec's end-to-end scenario. *)
Definition sample_accounts : list (string * account_record) :=
  [("76561198000000001", [("AccountName", "bob99"); ("PersonaName", "Bob")]);
   ("76561198000000002", [("AccountName", "carol_w")])].

(** The accessory of the spec's end-to-end scenario, just started: two
    inputs, the second one selected by the settings file. *)
Definition sample_inputs : list input := [(1, "Bob", "bob99"); (2, "carol_w", "carol_w")].

Definition sample_world : world := boot sample_inputs (Some 2) 0 sample_files.

(** ** Further code: the accounts file, labels and the [--inputs] branch *)

Definition LOGIN_USERS : string := "~/.local/share/Steam/config/loginusers.vdf".

Section Accounts.
Context `{codec : VdfCodec}.

(** [get_accounts()]: the value under ['users'], whatever its shape. *)
Definition get_accounts (fs : filesystem) : result vdf :=
  user_registry ← load_file LOGIN_USERS fs;
  getitem_path ["users"] (VDict user_registry).
End Accounts.

(** Characters are bytes; the [str] methods below are modelled on ASCII
    text, where they only look at one byte at a time: a byte from 128 up
    is left alone by [lower] and is neither alphanumeric nor a space. *)
Definition code (c : ascii) : N := Ascii.N_of_ascii c.

Definition in_range (lo hi : N) (c : ascii) : bool :=
  ((lo <=? code c) && (code c <=? hi))%N.

Definition is_ascii_char (c : ascii) : bool := (code c <? 128)%N.
Definition isupper (c : ascii) : bool := in_range 65 90 c.
Definition islower (c : ascii) : bool := in_range 97 122 c.
Definition isdigit (c : ascii) : bool := in_range 48 57 c.

(** [ch.isalnum()] *)
Definition isalnum (c : ascii) : bool := isdigit c || isupper c || islower c.

(** [ch.isspace()]: tab to carriage return, the four separators 28 to 31,
    and the space. *)
Definition isspace (c : ascii) : bool := in_range 9 13 c || in_range 28 32 c.

Definition lower_char (c : ascii) : ascii :=
  if isupper c then Ascii.ascii_of_N (code c + 32) else c.

Fixpoint str_map (f : ascii → ascii) (s : string) : string :=
  match s with
  | EmptyString => EmptyString
  | String c rest => String (f c) (str_map f rest)
  end.

Fixpoint str_filter (p : ascii → bool) (s : string) : string :=
  match s with
  | EmptyString => EmptyString
  | String c rest => if p c then String c (str_filter p rest) else str_filter p rest
  end.

Fixpoint str_forall (p : ascii → bool) (s : string) : bool :=
  match s with
  | EmptyString => true
  | String c rest => p c && str_forall p rest
  end.

Definition is_ascii (s : string) : bool := str_forall is_ascii_char s.

(** [s.lower()] *)
Definition lower (s : string) : string := str_map lower_char s.

(** ["".join(ch for ch in label.lower() if ch.isalnum())] *)
Definition _slugify_label (label : string) : string := str_filter isalnum (lower label).

(** [needle in s] *)
Fixpoint contains (needle s : string) : bool :=
  String.prefix needle s ||
  match s with
  | EmptyString => false
  | String _ rest => contains needle rest
  end.

Definition _guess_input_type (name : string) : Z :=
  let s := lower name in
  if contains "hdmi" s then 3
  else if contains "airplay" s || contains "cast" s then 8
  else if String.prefix "app" s || contains "app" s then 10
  else if contains "usb" s then 9
  else if contains "dvi" s then 7
  else if contains "component" s then 6
  else if contains "svideo" s then 5
  else if contains "composite" s || bool_decide (s ∈ ["av"; "video"]) then 4
  else if bool_decide (s ∈ ["tuner"; "tv"; "antenna"]) then 2
  else if contains "home" s then 1
  else 0.

(** [s.split(",")] *)
Fixpoint split_comma (s : string) : list string :=
  match s with
  | EmptyString => [EmptyString]
  | String c rest =>
      if decide (c = ","%char) then EmptyString :: split_comma rest
      else
        match split_comma rest with
        | [] => [String c EmptyString]
        | w :: ws => String c w :: ws
        end
  end.

Fixpoint lstrip (s : string) : string :=
  match s with
  | EmptyString => EmptyString
  | String c rest => if isspace c then lstrip rest else s
  end.

Fixpoint rstrip (s : string) : string :=
  match s with
  | EmptyString => EmptyString
  | String c rest =>
      match rstrip rest with
      | EmptyString => if isspace c then EmptyString else String c EmptyString
      | r => String c r
      end
  end.

(** [s.strip()] *)
Definition strip (s : string) : string := rstrip (lstrip s).

(** [[s.strip() for s in cli.inputs.split(",") if s.strip()]] *)
Definition override_labels (inputs_arg : string) : list string :=
  filter (λ s, s ≠ "") (strip <$> split_comma inputs_arg).

(** [resolved_items] of the [--inputs] branch. *)
Definition cli_inputs (inputs_arg : string) : list input :=
  override_inputs _slugify_label (override_labels inputs_arg).

Definition no_comma (s : string) : bool :=
  str_forall (λ c, bool_decide (c ≠ ","%char)) s.

(** A label as the [--inputs] branch keeps them: not empty, no comma, no
    space at either end. *)
Definition clean_label (l : string) : Prop :=
  l ≠ "" ∧ no_comma l = true ∧ strip l = l.

(** A slug as [_slugify_label] makes them: lowercase letters and digits. *)
Definition is_slug (s : string) : bool :=
  str_forall (λ c, islower c || isdigit c) s.






(** * Properties *)

(** ** Dicts and paths *)

Lemma dict_get_set_eq {A} k (v : A) d : dict_get k (dict_set k v d) = Some v.
Proof.
  induction d as [|[k' v'] d IH]; simpl.
  - by rewrite decide_True.
  - destruct (decide (k' = k)) as [-> | Hne]; simpl.
    + by rewrite decide_True.
    + by rewrite decide_False.
Qed.

Lemma dict_get_set_ne {A} k k' (v : A) d :
  k ≠ k' → dict_get k' (dict_set k v d) = dict_get k' d.
Proof.
  intros Hne. induction d as [|[k0 v0] d IH]; simpl.
  - by rewrite decide_False.
  - destruct (decide (k0 = k)) as [-> | Hne0]; simpl.
    + by rewrite !decide_False.
    + destruct (decide (k0 = k')); [done | apply IH].
Qed.

Lemma dict_set_keys {A} k (v : A) d :
  is_Some (dict_get k d) → (dict_set k v d).*1 = d.*1.
Proof.
  induction d as [|[k0 v0] d IH]; csimpl.
  - by intros [? ?].
  - destruct (decide (k0 = k)) as [-> | Hne]; csimpl; [done |].
    intros Hs. by rewrite IH.
Qed.

Lemma dict_set_keys_fresh {A} k (v : A) d :
  dict_get k d = None → (dict_set k v d).*1 = d.*1 ++ [k].
Proof.
  induction d as [|[k0 v0] d IH]; csimpl; [done |].
  destruct (decide (k0 = k)) as [-> | Hne]; csimpl; [done |].
  intros Hs. by rewrite IH.
Qed.

(** The assignment goes through exactly when the path leads to a dict. *)
Lemma setitem_path_ok p leaf v d inner :
  getitem_path p (VDict d) = Ok (VDict inner) →
  ∃ d', setitem_path p leaf v d = Ok d'.
Proof.
  revert d. induction p as [|k p IH]; intros d; simpl; [eauto |].
  destruct (dict_get k d) as [[s|child]|] eqn:Hk; try done.
  - destruct p; done.
  - intros Hget. destruct (IH _ Hget) as [child' ->]. simpl. eauto.
Qed.

Lemma setitem_path_inv p leaf v d d' :
  setitem_path p leaf v d = Ok d' →
  ∃ inner, getitem_path p (VDict d) = Ok (VDict inner).
Proof.
  revert d d'. induction p as [|k p IH]; intros d d'; simpl; [eauto |].
  destruct (dict_get k d) as [[s|child]|] eqn:Hk; try done.
  destruct (setitem_path p leaf v child) as [child'|] eqn:Hset; [|done].
  intros _. eapply IH, Hset.
Qed.

(** Reading the leaf back after the assignment. *)
Lemma getitem_setitem_path p leaf v d d' :
  setitem_path p leaf v d = Ok d' →
  getitem_path (p ++ [leaf]) (VDict d') = Ok v.
Proof.
  revert d d'. induction p as [|k p IH]; intros d d'; simpl.
  - intros [= <-]. by rewrite dict_get_set_eq.
  - destruct (dict_get k d) as [[s|child]|] eqn:Hk; try done.
    destruct (setitem_path p leaf v child) as [child'|] eqn:Hset; [|done].
    simpl. intros [= <-]. rewrite dict_get_set_eq. eapply IH, Hset.
Qed.

(** A path neither on the way to the leaf nor below it reads the same
    before and after. *)
Lemma getitem_setitem_path_other p leaf v d d' q :
  setitem_path p leaf v d = Ok d' →
  ¬ q `prefix_of` p ++ [leaf] →
  ¬ p ++ [leaf] `prefix_of` q →
  getitem_path q (VDict d') = getitem_path q (VDict d).
Proof.
  revert d d' q. induction p as [|k p IH]; intros d d' q; simpl.
  - intros [= <-] Hq1 Hq2. destruct q as [|k' q].
    + destruct Hq1. apply prefix_nil.
    + simpl. rewrite dict_get_set_ne; [done |].
      intros ->. apply Hq2. by apply prefix_cons, prefix_nil.
  - destruct (dict_get k d) as [[s|child]|] eqn:Hk; try done.
    destruct (setitem_path p leaf v child) as [child'|] eqn:Hset; [|done].
    simpl. intros [= <-] Hq1 Hq2. destruct q as [|k' q].
    + destruct Hq1. apply prefix_nil.
    + simpl. destruct (decide (k = k')) as [<- | Hne].
      * rewrite dict_get_set_eq, Hk. eapply IH; [done | |].
        -- intros Hp. apply Hq1. by apply prefix_cons.
        -- intros Hp. apply Hq2. by apply prefix_cons.
      * by rewrite dict_get_set_ne.
Qed.

(** The dict the path leads to is the one that gets the assignment. *)
Lemma getitem_setitem_path_section p leaf v d d' inner :
  setitem_path p leaf v d = Ok d' →
  getitem_path p (VDict d) = Ok (VDict inner) →
  getitem_path p (VDict d') = Ok (VDict (dict_set leaf v inner)).
Proof.
  revert d d'. induction p as [|k p IH]; intros d d'; simpl.
  - by intros [= <-] [= <-].
  - destruct (dict_get k d) as [[s|child]|] eqn:Hk; try done.
    destruct (setitem_path p leaf v child) as [child'|] eqn:Hset; [|done].
    simpl. intros [= <-] Hget. rewrite dict_get_set_eq. by eapply IH.
Qed.

(** Every other dict keeps its keys, in order. *)
Lemma getitem_setitem_path_keys p leaf v d d' q x :
  setitem_path p leaf v d = Ok d' →
  getitem_path q (VDict d) = Ok (VDict x) →
  q ≠ p →
  ¬ p ++ [leaf] `prefix_of` q →
  ∃ x', getitem_path q (VDict d') = Ok (VDict x') ∧ x'.*1 = x.*1.
Proof.
  revert d d' q. induction p as [|k p IH]; intros d d' q; simpl.
  - intros [= <-] Hget Hq Hbelow. destruct q as [|k' q]; [done |].
    exists x. split; [|done]. simpl in *. rewrite dict_get_set_ne; [done |].
    intros ->. apply Hbelow. by apply prefix_cons, prefix_nil.
  - destruct (dict_get k d) as [[s|child]|] eqn:Hk; try done.
    destruct (setitem_path p leaf v child) as [child'|] eqn:Hset; [|done].
    simpl. intros [= <-] Hget Hq Hbelow. destruct q as [|k' q].
    + injection Hget as <-. eexists. split; [done |].
      apply dict_set_keys. by rewrite Hk.
    + simpl in *. destruct (decide (k = k')) as [<- | Hne].
      * rewrite dict_get_set_eq. rewrite Hk in Hget.
        apply (IH child child' q); [done | done | congruence |].
        intros Hp. apply Hbelow. by apply prefix_cons.
      * rewrite dict_get_set_ne by done. by exists x.
Qed.

Lemma setitem_path_keys p leaf v d d' :
  p ≠ [] → setitem_path p leaf v d = Ok d' → d'.*1 = d.*1.
Proof.
  destruct p as [|k p]; [done |]. intros _. simpl.
  destruct (dict_get k d) as [[s|child]|] eqn:Hk; try done.
  destruct (setitem_path p leaf v child) as [child'|]; [|done].
  simpl. intros [= <-]. apply dict_set_keys. by rewrite Hk.
Qed.

(** ** [get_account] and [set_account] *)

Section SteamProperties.
Context `{codec : VdfCodec}.

Lemma set_account_written fs registry account :
  well_formed_registry fs registry →
  ∃ registry',
    setitem_path STEAM_KEY AUTO_LOGIN_USER (VStr account) registry = Ok registry'
    ∧ set_account account IoOk fs = (Ok tt, <[REGISTRY := vdf_dump registry']> fs).
Proof.
  intros [Hload [steam Hsteam]].
  destruct (setitem_path_ok _ AUTO_LOGIN_USER (VStr account) _ _ Hsteam) as [registry' Hset].
  exists registry'. split; [done |].
  unfold set_account. by rewrite Hload, Hset.
Qed.

Lemma load_file_insert path text fs d :
  vdf_load text = Some d → load_file path (<[path := text]> fs) = Ok d.
Proof. intros Hd. unfold load_file. by rewrite lookup_insert_eq, Hd. Qed.

(** C4. On a well-formed settings file, [set_account account] followed by
    [get_account] returns [account], provided the write goes through and
    the codec reads its own output back. *)
Theorem set_account_then_get_account fs registry account :
  well_formed_registry fs registry →
  write_back_readable account registry →
  ∃ fs', set_account account IoOk fs = (Ok tt, fs')
         ∧ get_account fs' = Ok (VStr account).
Proof.
  intros Hwf Hcodec.
  destruct (set_account_written fs registry account Hwf) as (registry' & Hset & Hrun).
  eexists. split; [exact Hrun |].
  unfold get_account. rewrite (load_file_insert _ _ _ registry') by by apply Hcodec.
  exact (getitem_setitem_path _ _ _ _ _ Hset).
Qed.

(** C5. On a well-formed settings file, [set_account] rewrites the one
    leaf only: every path that is neither on the way to the leaf nor below
    it reads as before (so does every top-level key other than the section
    holding the leaf); every dict keeps its keys in their order, the Steam
    section being its old self with the leaf assigned; and no other file
    changes. *)
Theorem set_account_preserves_other_keys fs registry account :
  well_formed_registry fs registry →
  write_back_readable account registry →
  ∃ fs' registry',
    set_account account IoOk fs = (Ok tt, fs')
    ∧ load_file REGISTRY fs' = Ok registry'
    ∧ registry'.*1 = registry.*1
    ∧ (∀ q, ¬ q `prefix_of` AUTO_LOGIN_PATH → ¬ AUTO_LOGIN_PATH `prefix_of` q →
            getitem_path q (VDict registry') = getitem_path q (VDict registry))
    ∧ (∀ k, k ≠ "Registry" → dict_get k registry' = dict_get k registry)
    ∧ (∀ q x, getitem_path q (VDict registry) = Ok (VDict x) →
              q ≠ STEAM_KEY → ¬ AUTO_LOGIN_PATH `prefix_of` q →
              ∃ x', getitem_path q (VDict registry') = Ok (VDict x') ∧ x'.*1 = x.*1)
    ∧ (∀ steam, getitem_path STEAM_KEY (VDict registry) = Ok (VDict steam) →
                getitem_path STEAM_KEY (VDict registry')
                = Ok (VDict (dict_set AUTO_LOGIN_USER (VStr account) steam)))
    ∧ (∀ path, path ≠ REGISTRY → fs' !! path = fs !! path).
Proof.
  intros Hwf Hcodec.
  destruct (set_account_written fs registry account Hwf) as (registry' & Hset & Hrun).
  exists (<[REGISTRY := vdf_dump registry']> fs), registry'.
  assert (Hother : ∀ q, ¬ q `prefix_of` AUTO_LOGIN_PATH → ¬ AUTO_LOGIN_PATH `prefix_of` q →
            getitem_path q (VDict registry') = getitem_path q (VDict registry)).
  { intros q. exact (getitem_setitem_path_other _ _ _ _ _ q Hset). }
  split_and!; try done.
  - apply load_file_insert. by apply Hcodec.
  - by apply (setitem_path_keys STEAM_KEY AUTO_LOGIN_USER (VStr account)).
  - intros k Hk.
    assert (Hq : getitem_path [k] (VDict registry') = getitem_path [k] (VDict registry)).
    { apply Hother.
      - intros Hp. by apply (prefix_cons_inv_1 k "Registry" []) in Hp.
      - intros Hp. apply prefix_length in Hp. simpl in Hp. lia. }
    simpl in Hq.
    destruct (dict_get k registry'), (dict_get k registry); congruence.
  - intros q x Hget Hq Hbelow.
    exact (getitem_setitem_path_keys _ _ _ _ _ q x Hset Hget Hq Hbelow).
  - intros steam Hsteam. exact (getitem_setitem_path_section _ _ _ _ _ _ Hset Hsteam).
  - intros path Hpath. by rewrite lookup_insert_ne.
Qed.

End SteamProperties.

Lemma set_account_then_get_account_witness :
  ∃ fs', set_account (codec := VdfText.codec) "bob99" IoOk sample_files = (Ok tt, fs')
         ∧ get_account (codec := VdfText.codec) fs' = Ok (VStr "bob99").
Proof.
  apply (set_account_then_get_account (codec := VdfText.codec)
           sample_files sample_registry "bob99").
  - split; [vm_compute; reflexivity | eexists; reflexivity].
  - intros registry' Hset. vm_compute in Hset. injection Hset as <-.
    vm_compute. reflexivity.
Defined.

Lemma set_account_preserves_other_keys_witness :
  ∃ fs' registry',
    set_account (codec := VdfText.codec) "alice" IoOk ten_keys_files = (Ok tt, fs')
    ∧ load_file (codec := VdfText.codec) REGISTRY fs' = Ok registry'
    ∧ registry'.*1 = ten_keys_registry.*1
    ∧ (∀ q, ¬ q `prefix_of` AUTO_LOGIN_PATH → ¬ AUTO_LOGIN_PATH `prefix_of` q →
            getitem_path q (VDict registry') = getitem_path q (VDict ten_keys_registry))
    ∧ (∀ k, k ≠ "Registry" → dict_get k registry' = dict_get k ten_keys_registry)
    ∧ (∀ q x, getitem_path q (VDict ten_keys_registry) = Ok (VDict x) →
              q ≠ STEAM_KEY → ¬ AUTO_LOGIN_PATH `prefix_of` q →
              ∃ x', getitem_path q (VDict registry') = Ok (VDict x') ∧ x'.*1 = x.*1)
    ∧ (∀ steam, getitem_path STEAM_KEY (VDict ten_keys_registry) = Ok (VDict steam) →
                getitem_path STEAM_KEY (VDict registry')
                = Ok (VDict (dict_set AUTO_LOGIN_USER (VStr "alice") steam)))
    ∧ (∀ path, path ≠ REGISTRY → fs' !! path = ten_keys_files !! path).
Proof.
  apply (set_account_preserves_other_keys (codec := VdfText.codec)
           ten_keys_files ten_keys_registry "alice").
  - split; [vm_compute; reflexivity | eexists; reflexivity].
  - intros registry' Hset. vm_compute in Hset. injection Hset as <-.
    vm_compute. reflexivity.
Defined.



(** ** The timer queue *)

Lemma earliest_elem hs h : earliest hs = Some h → h ∈ hs.
Proof.
  revert h. induction hs as [|h0 hs IH]; intros h; simpl; [done |].
  destruct (earliest hs) as [h'|].
  - destruct (h_when h' <? h_when h0); intros [= <-].
    + apply elem_of_cons. right. by apply IH.
    + apply elem_of_cons. by left.
  - intros [= <-]. apply elem_of_cons. by left.
Qed.

Lemma earliest_None hs : earliest hs = None → hs = [].
Proof. destruct hs as [|h hs]; simpl; [done |]. by destruct (earliest hs) as [h'|]; [destruct (_ <? _) |]. Qed.

Lemma earliest_le hs h h' : earliest hs = Some h → h' ∈ hs → h_when h ≤ h_when h'.
Proof.
  revert h. induction hs as [|h0 hs IH]; intros h; simpl; [done |].
  intros Hmin [-> | Hin]%elem_of_cons.
  - destruct (earliest hs) as [h1|]; [|injection Hmin as <-; lia].
    destruct (Z.ltb_spec (h_when h1) (h_when h0)); injection Hmin as <-; lia.
  - destruct (earliest hs) as [h1|] eqn:Hmin'.
    + specialize (IH h1 eq_refl Hin).
      destruct (Z.ltb_spec (h_when h1) (h_when h0)); injection Hmin as <-; lia.
    + apply earliest_None in Hmin'. subst hs. by apply elem_of_nil in Hin.
Qed.

Lemma run_next_Some target w w' :
  run_next target w = Some w' →
  ∃ h, h ∈ loop_scheduled (w_loop w)
       ∧ h_when h ≤ target
       ∧ w' = if h_cancelled h then popped h w else _restore_power (popped h w).
Proof.
  unfold run_next. destruct (earliest _) as [h|] eqn:Hmin; [|done].
  destruct (Z.leb_spec (h_when h) target); [|done].
  intros [= <-]. exists h. split_and!; [by apply earliest_elem | done |].
  by destruct (h_callback h).
Qed.

Lemma run_next_None target w h :
  run_next target w = None → h ∈ loop_scheduled (w_loop w) → target < h_when h.
Proof.
  unfold run_next. destruct (earliest _) as [h0|] eqn:Hmin.
  - destruct (Z.leb_spec (h_when h0) target); [done |].
    intros _ Hin. pose proof (earliest_le _ _ _ Hmin Hin). lia.
  - intros _ Hin. apply earliest_None in Hmin. rewrite Hmin in Hin.
    by apply elem_of_nil in Hin.
Qed.

Lemma run_next_shrinks target w w' :
  run_next target w = Some w' →
  (length (loop_scheduled (w_loop w')) < length (loop_scheduled (w_loop w)))%nat.
Proof.
  intros (h & Hin & _ & ->)%run_next_Some.
  assert (Hlt : (length (loop_scheduled (w_loop (popped h w)))
                 < length (loop_scheduled (w_loop w)))%nat).
  { simpl. apply (length_filter_lt _ _ h); [done |]. by intros []. }
  by destruct (h_cancelled h).
Qed.

(** [advance] gives the loop enough fuel: when it stops, no timer that is
    due is left in the queue. *)
Lemma run_until_runs_every_due_timer fuel target w :
  (length (loop_scheduled (w_loop w)) ≤ fuel)%nat →
  run_next target (run_until fuel target w) = None.
Proof.
  revert w. induction fuel as [|fuel IH]; intros w Hlen; simpl.
  - destruct (loop_scheduled (w_loop w)) eqn:Hs; [|simpl in Hlen; lia].
    unfold run_next. by rewrite Hs.
  - destruct (run_next target w) as [w'|] eqn:Hnext; [|done].
    apply IH. apply run_next_shrinks in Hnext. lia.
Qed.

Lemma advance_runs_every_due_timer dt w h :
  h ∈ loop_scheduled (w_loop (advance dt w)) →
  loop_time (w_loop (advance dt w)) < h_when h.
Proof.
  unfold advance. simpl. intros Hin.
  eapply run_next_None; [|exact Hin].
  by apply run_until_runs_every_due_timer.
Qed.

(** ** The invariant of the restore timer *)

Lemma NoDup_fmap_eq {A B} (f : A → B) (l : list A) x y :
  NoDup (f <$> l) → x ∈ l → y ∈ l → f x = f y → x = y.
Proof.
  induction l as [|a l IH]; csimpl; [by intros _ ?%elem_of_nil |].
  intros [Hnotin Hnd]%NoDup_cons [-> | Hx]%elem_of_cons [-> | Hy]%elem_of_cons Heq;
    [done | | | by apply IH].
  - destruct Hnotin. rewrite Heq. by apply list_elem_of_fmap_2.
  - destruct Hnotin. rewrite <-Heq. by apply list_elem_of_fmap_2.
Qed.

Lemma mark_cancelled_id id h : h_id (mark_cancelled id h) = h_id h.
Proof. unfold mark_cancelled. by destruct (decide _). Qed.

Lemma cancel_ids id l :
  h_id <$> loop_scheduled (cancel id l) = h_id <$> loop_scheduled l.
Proof.
  simpl. rewrite <-list_fmap_compose. apply list_fmap_ext.
  intros _ h _. apply mark_cancelled_id.
Qed.

Lemma cancel_fresh id l : timer_ids_fresh l → timer_ids_fresh (cancel id l).
Proof.
  intros [Hnd Hlt]. split; [by rewrite cancel_ids |].
  intros h (h0 & -> & Hin)%list_elem_of_fmap. rewrite mark_cancelled_id. by apply Hlt.
Qed.

(** Cancelling the timer the handle names leaves no timer outstanding. *)
Lemma cancel_owned_all_cancelled w id h :
  timers_owned w →
  _power_restore_handle (w_tv w) = Some id →
  h ∈ loop_scheduled (cancel id (w_loop w)) →
  h_cancelled h = true.
Proof.
  intros Hown Hid (h0 & -> & Hin)%list_elem_of_fmap.
  unfold mark_cancelled. destruct (decide (h_id h0 = id)) as [|Hne]; [done |].
  destruct (h_cancelled h0) eqn:Hc; [done |].
  specialize (Hown h0 Hin Hc). congruence.
Qed.

Lemma unowned_all_cancelled w h :
  timers_owned w →
  _power_restore_handle (w_tv w) = None →
  h ∈ loop_scheduled (w_loop w) →
  h_cancelled h = true.
Proof.
  intros Hown Hid Hin. destruct (h_cancelled h) eqn:Hc; [done |].
  specialize (Hown h Hin Hc). congruence.
Qed.

(** The invariant only reads the handle, the loop and the lookup dicts. *)
Lemma accessory_inv_ext w w' :
  _power_restore_handle (w_tv w') = _power_restore_handle (w_tv w) →
  loop_scheduled (w_loop w') = loop_scheduled (w_loop w) →
  loop_next_id (w_loop w') = loop_next_id (w_loop w) →
  inputs (w_tv w') = inputs (w_tv w) →
  id_to_label (w_tv w') = id_to_label (w_tv w) →
  id_to_slug (w_tv w') = id_to_slug (w_tv w) →
  accessory_inv w → accessory_inv w'.
Proof.
  intros Hh Hl Hn Hi Hlab Hslug [Hown Hpend Hfresh [Hd1 Hd2]].
  split; unfold timers_owned, handle_pending, timer_ids_fresh, dicts_built;
    rewrite ?Hh, ?Hl, ?Hn, ?Hi, ?Hlab, ?Hslug; done.
Qed.

(** No timer outstanding and no handle set: the invariant holds. *)
Lemma accessory_inv_idle w :
  (∀ h, h ∈ loop_scheduled (w_loop w) → h_cancelled h = true) →
  _power_restore_handle (w_tv w) = None →
  timer_ids_fresh (w_loop w) →
  dicts_built (w_tv w) →
  accessory_inv w.
Proof.
  intros Hall Hnone Hfresh Hdicts. split; [| |done..].
  - intros h Hin Hc. rewrite (Hall h Hin) in Hc. done.
  - intros id Hid. congruence.
Qed.

(** One fresh timer scheduled on a queue with nothing outstanding, and the
    handle set to it. *)
Lemma accessory_inv_scheduled w l :
  (∀ h, h ∈ loop_scheduled l → h_cancelled h = true) →
  timer_ids_fresh l →
  dicts_built (w_tv w) →
  accessory_inv
    (with_tv (set_handle (Some (call_later RESTORE_DELAY RestorePower l).1))
       (with_loop (λ _, (call_later RESTORE_DELAY RestorePower l).2) w)).
Proof.
  intros Hall [Hnd Hlt] Hdicts. split; [| | |done].
  - intros h [Hin | ->%list_elem_of_singleton]%elem_of_app Hc; [|done].
    rewrite (Hall h Hin) in Hc. done.
  - intros id [= <-].
    exists {| h_id := loop_next_id l; h_when := loop_time l + RESTORE_DELAY;
              h_callback := RestorePower; h_cancelled := false |}.
    split; [|done]. apply elem_of_app. right. by apply list_elem_of_singleton.
  - split; simpl.
    + rewrite fmap_app. apply NoDup_app. split_and!; [done | |apply NoDup_singleton].
      intros id (h & -> & Hin)%list_elem_of_fmap Heq%list_elem_of_singleton.
      specialize (Hlt h Hin). simpl in Heq. lia.
    + intros h [Hin | ->%list_elem_of_singleton]%elem_of_app; [|simpl; lia].
      specialize (Hlt h Hin). lia.
Qed.

Lemma boot_inv input_items initial_identifier t0 files :
  accessory_inv (boot input_items initial_identifier t0 files).
Proof.
  apply accessory_inv_idle; simpl; [by intros h ?%elem_of_nil | done | | done].
  split; simpl; [apply NoDup_nil_2 | by intros h ?%elem_of_nil].
Qed.

Lemma on_power_changed_loop is_on w : w_loop (on_power_changed is_on w) = w_loop w.
Proof. by destruct is_on. Qed.

Lemma on_power_changed_tv is_on w : w_tv (on_power_changed is_on w) = w_tv w.
Proof. by destruct is_on. Qed.

Lemma set_active_inv value w : accessory_inv w → accessory_inv (set_active value w).
Proof.
  intros Hinv. pose proof Hinv as [Hown Hpend Hfresh Hdicts]. unfold set_active.
  destruct (decide (value = 1)) as [-> | Hne1].
  - rewrite decide_False by done.
    destruct (_power_restore_handle (w_tv w)) as [id|] eqn:Hid.
    + apply accessory_inv_idle; simpl; [|done | by apply cancel_fresh | done].
      intros h Hin. by eapply cancel_owned_all_cancelled.
    + by apply (accessory_inv_ext w).
  - destruct (decide (value = 0)) as [-> | Hne0].
    + unfold cancel_restore. simpl.
      destruct (_power_restore_handle (w_tv w)) as [id|] eqn:Hid.
      * apply (accessory_inv_scheduled _ (cancel id (w_loop w)));
          [|by apply cancel_fresh | done].
        intros h Hin. by eapply cancel_owned_all_cancelled.
      * apply (accessory_inv_scheduled _ (w_loop w)); [|done..].
        intros h Hin. by eapply unowned_all_cancelled.
    + apply (accessory_inv_ext w); try done.
      all: by rewrite ?on_power_changed_tv, ?on_power_changed_loop.
Qed.

Lemma popped_scheduled h w x :
  x ∈ loop_scheduled (w_loop (popped h w)) ↔
  h_id x ≠ h_id h ∧ x ∈ loop_scheduled (w_loop w).
Proof. simpl. apply (list_elem_of_filter (λ y, h_id y ≠ h_id h)). Qed.

Lemma popped_NoDup h w :
  NoDup (h_id <$> loop_scheduled (w_loop w)) →
  NoDup (h_id <$> loop_scheduled (w_loop (popped h w))).
Proof.
  intros Hnd. apply (sublist_NoDup _ (h_id <$> loop_scheduled (w_loop w))); [done |].
  apply fmap_sublist, sublist_filter.
Qed.

Lemma popped_fresh h w : timer_ids_fresh (w_loop w) → timer_ids_fresh (w_loop (popped h w)).
Proof.
  intros [Hnd Hlt]. split; [by apply popped_NoDup |].
  intros x [_ Hin]%popped_scheduled. by apply Hlt.
Qed.

Lemma run_next_inv target w w' :
  accessory_inv w → run_next target w = Some w' → accessory_inv w'.
Proof.
  intros [Hown Hpend [Hnd Hlt] Hdicts] (h & Hin & _ & ->)%run_next_Some.
  destruct (h_cancelled h) eqn:Hc.
  - split; [| |by apply popped_fresh | done].
    + intros x [_ Hx]%popped_scheduled Hxc. by apply Hown.
    + intros id Hid. destruct (Hpend id Hid) as (x & Hx & Hxid & Hxc).
      exists x. split_and!; [|done..]. apply popped_scheduled. split; [|done].
      intros Heq. assert (x = h) as -> by by eapply NoDup_fmap_eq. congruence.
  - apply accessory_inv_idle; [|done | by apply (popped_fresh h w) | done].
    intros x [Hne Hx]%popped_scheduled. destruct (h_cancelled x) eqn:Hxc; [done |].
    pose proof (Hown x Hx Hxc). pose proof (Hown h Hin Hc). congruence.
Qed.

Lemma run_until_inv fuel target w : accessory_inv w → accessory_inv (run_until fuel target w).
Proof.
  revert w. induction fuel as [|fuel IH]; intros w Hinv; simpl; [done |].
  destruct (run_next target w) as [w'|] eqn:Hnext; [|done].
  eapply IH, run_next_inv; done.
Qed.

Lemma advance_inv dt w : accessory_inv w → accessory_inv (advance dt w).
Proof.
  intros Hinv. unfold advance.
  eapply accessory_inv_ext; [..|by apply run_until_inv]; done.
Qed.

Section ReachableInvariant.
Context `{codec : VdfCodec}.

Lemma on_input_changed_ok identifier label slug io w :
  (on_input_changed identifier label slug io w).1 = Ok tt.
Proof.
  unfold on_input_changed.
  by destruct (set_account slug io _) as [[[]|e] files].
Qed.

Lemma on_input_changed_world identifier label slug io w :
  (on_input_changed identifier label slug io w).2
  = with_files (set_account slug io (w_files w)).2
      (emit (InputChanged identifier label slug) w).
Proof.
  unfold on_input_changed. simpl.
  by destruct (set_account slug io _) as [[[]|e] files].
Qed.

Lemma set_active_identifier_inv value io w :
  accessory_inv w → accessory_inv (set_active_identifier value io w).2.
Proof.
  intros Hinv. unfold set_active_identifier. rewrite on_input_changed_world.
  by apply (accessory_inv_ext w).
Qed.

Lemma reachable_inv w : reachable w → accessory_inv w.
Proof.
  induction 1 as [items init t0 files | value w _ IH | value io w _ IH | dt w _ _ IH
                 | files w _ IH].
  - apply boot_inv.
  - by apply set_active_inv.
  - by apply set_active_identifier_inv.
  - by apply advance_inv.
  - by apply (accessory_inv_ext w).
Qed.
End ReachableInvariant.

(** ** What letting time pass does *)

Lemma restore_power_fields w :
  w_tv (_restore_power w) = set_is_active 1 (set_handle None (w_tv w))
  ∧ w_loop (_restore_power w) = w_loop w
  ∧ w_files (_restore_power w) = w_files w
  ∧ w_trace (_restore_power w) = w_trace w ++ [CharSetValue "Active" 1; PowerChanged true].
Proof. split_and!; try done. simpl. by rewrite <-app_assoc. Qed.

(** With no timer both due and outstanding, the loop only drops cancelled
    handles. *)
Lemma run_until_idle fuel target w :
  (∀ h, h ∈ loop_scheduled (w_loop w) → h_cancelled h = true ∨ target < h_when h) →
  w_tv (run_until fuel target w) = w_tv w
  ∧ w_trace (run_until fuel target w) = w_trace w
  ∧ w_files (run_until fuel target w) = w_files w
  ∧ loop_scheduled (w_loop (run_until fuel target w)) ⊆ loop_scheduled (w_loop w).
Proof.
  revert w. induction fuel as [|fuel IH]; intros w Hidle; simpl; [done |].
  destruct (run_next target w) as [w'|] eqn:Hnext; [|done].
  apply run_next_Some in Hnext as (h & Hin & Hdue & ->).
  destruct (Hidle h Hin) as [Hc|Hlate]; [|lia]. rewrite Hc.
  destruct (IH (popped h w)) as (Htv & Htr & Hfs & Hsub).
  { intros x [_ Hx]%popped_scheduled. by apply Hidle. }
  split_and!; [done..|].
  intros x Hx. apply Hsub in Hx. by apply popped_scheduled in Hx as [_ Hx].
Qed.

(** With one timer outstanding and due, the loop runs [_restore_power]
    once. *)
Lemma run_until_fires fuel target w h0 :
  h0 ∈ loop_scheduled (w_loop w) →
  h_cancelled h0 = false →
  h_when h0 ≤ target →
  (∀ h, h ∈ loop_scheduled (w_loop w) → h_id h ≠ h_id h0 → h_cancelled h = true) →
  NoDup (h_id <$> loop_scheduled (w_loop w)) →
  (length (loop_scheduled (w_loop w)) ≤ fuel)%nat →
  w_tv (run_until fuel target w) = set_is_active 1 (set_handle None (w_tv w))
  ∧ w_trace (run_until fuel target w)
    = w_trace w ++ [CharSetValue "Active" 1; PowerChanged true]
  ∧ w_files (run_until fuel target w) = w_files w
  ∧ ∀ h, h ∈ loop_scheduled (w_loop (run_until fuel target w)) → h_cancelled h = true.
Proof.
  revert w. induction fuel as [|fuel IH]; intros w Hin0 Hc0 Hdue0 Hothers Hnd Hlen; simpl.
  { destruct (loop_scheduled (w_loop w)); [by apply elem_of_nil in Hin0 | simpl in Hlen; lia]. }
  destruct (run_next target w) as [w'|] eqn:Hnext.
  - pose proof (run_next_shrinks _ _ _ Hnext) as Hshrink.
    apply run_next_Some in Hnext as (h & Hin & Hdue & ->).
    destruct (decide (h_id h = h_id h0)) as [Heq|Hne].
    + assert (h = h0) as -> by by eapply NoDup_fmap_eq.
      rewrite Hc0 in *.
      destruct (restore_power_fields (popped h0 w)) as (Htv & Hloop & Hfs & Htr).
      destruct (run_until_idle fuel target (_restore_power (popped h0 w)))
        as (Htv' & Htr' & Hfs' & Hsub).
      { intros x. rewrite Hloop. intros [Hne Hx]%popped_scheduled. left. by apply Hothers. }
      rewrite Htv', Htr', Hfs', Htv, Htr, Hfs. split_and!; [done..|].
      intros x Hx. apply Hsub in Hx. rewrite Hloop in Hx.
      apply popped_scheduled in Hx as [Hne Hx]. by apply Hothers.
    + rewrite (Hothers h Hin Hne) in *.
      destruct (IH (popped h w)) as (Htv & Htr & Hfs & Hall); try done.
      * apply popped_scheduled. split; [congruence | done].
      * intros x [_ Hx]%popped_scheduled. by apply Hothers.
      * by apply popped_NoDup.
      * lia.
  - pose proof (run_next_None _ _ _ Hnext Hin0). lia.
Qed.

Lemma filter_none {A} (P : A → Prop) `{∀ x, Decision (P x)} (l : list A) :
  (∀ x, x ∈ l → ¬ P x) → filter P l = [].
Proof.
  induction l as [|a l IH]; intros Hall; [done |].
  rewrite filter_cons_False by (apply Hall; by left).
  apply IH. intros x Hx. apply Hall. by right.
Qed.

Lemma outstanding_nil l :
  (∀ h, h ∈ loop_scheduled l → h_cancelled h = true) → outstanding l = [].
Proof.
  intros Hall. apply filter_none. intros h Hin. by rewrite (Hall h Hin).
Qed.

Lemma outstanding_elem l h :
  h ∈ outstanding l ↔ h_cancelled h = false ∧ h ∈ loop_scheduled l.
Proof. apply (list_elem_of_filter (λ x, h_cancelled x = false)). Qed.

Lemma filter_at_most_one {A B} (f : A → B) (P : A → Prop) `{∀ x, Decision (P x)}
    (c : B) (l : list A) :
  NoDup (f <$> l) → (∀ x, x ∈ l → P x → f x = c) → (length (filter P l) ≤ 1)%nat.
Proof.
  induction l as [|a l IH]; csimpl; [lia |].
  intros [Hnotin Hnd]%NoDup_cons Hc. rewrite filter_cons.
  destruct (decide (P a)) as [Ha|Ha].
  - rewrite (filter_none P l); [simpl; lia |].
    intros x Hx Hpx. apply Hnotin.
    rewrite (Hc a) by (done || by left). rewrite <-(Hc x) by (done || by right).
    by apply list_elem_of_fmap_2.
  - apply IH; [done |]. intros x Hx. apply Hc. by right.
Qed.

Lemma inv_at_most_one_outstanding w :
  accessory_inv w → (length (outstanding (w_loop w)) ≤ 1)%nat.
Proof.
  intros [Hown Hpend [Hnd _] _].
  destruct (_power_restore_handle (w_tv w)) as [id|] eqn:Hid.
  - apply (filter_at_most_one h_id _ id); [done |].
    intros h Hin Hc. specialize (Hown h Hin Hc). congruence.
  - rewrite outstanding_nil; [simpl; lia |].
    intros h Hin. by eapply unowned_all_cancelled.
Qed.

(** ** The power setter *)

Lemma set_active_off w :
  set_active 0 w
  = {| w_tv := set_handle (Some (loop_next_id (w_loop w))) (set_is_active 0 (w_tv w));
       w_loop := (call_later RESTORE_DELAY RestorePower (restore_loop w)).2;
       w_files := w_files w;
       w_trace := w_trace w ++ [PowerChanged false; KillallSteam] |}.
Proof.
  unfold set_active, cancel_restore, restore_loop. simpl.
  destruct (_power_restore_handle (w_tv w));
    unfold with_tv, with_loop, on_power_changed, emit; simpl; by rewrite <-app_assoc.
Qed.

Lemma set_active_on w :
  set_active 1 w
  = {| w_tv := set_is_active 1 (set_handle None (w_tv w));
       w_loop := restore_loop w;
       w_files := w_files w;
       w_trace := w_trace w ++ [PowerChanged true] |}.
Proof.
  unfold set_active, restore_loop. simpl.
  destruct w as [[] ? ? ?]; simpl. by destruct _power_restore_handle0.
Qed.

Lemma restore_loop_all_cancelled w h :
  timers_owned w → h ∈ loop_scheduled (restore_loop w) → h_cancelled h = true.
Proof.
  intros Hown. unfold restore_loop.
  destruct (_power_restore_handle (w_tv w)) as [id|] eqn:Hid.
  - by apply cancel_owned_all_cancelled.
  - by apply unowned_all_cancelled.
Qed.

Lemma restore_loop_time w : loop_time (restore_loop w) = loop_time (w_loop w).
Proof. unfold restore_loop. by destruct (_power_restore_handle (w_tv w)). Qed.

Lemma restore_loop_next_id w : loop_next_id (restore_loop w) = loop_next_id (w_loop w).
Proof. unfold restore_loop. by destruct (_power_restore_handle (w_tv w)). Qed.

Lemma advance_fields dt w :
  let w' := run_until (length (loop_scheduled (w_loop w))) (loop_time (w_loop w) + dt) w in
  w_tv (advance dt w) = w_tv w'
  ∧ w_trace (advance dt w) = w_trace w'
  ∧ w_files (advance dt w) = w_files w'
  ∧ loop_scheduled (w_loop (advance dt w)) = loop_scheduled (w_loop w').
Proof. done. Qed.

Lemma power_changes_app t1 t2 :
  power_changes (t1 ++ t2) = power_changes t1 ++ power_changes t2.
Proof. apply omap_app. Qed.

(** The world after [set_active 0], seen from a world satisfying the
    invariant: power is off, the hook ran once, and the one outstanding
    timer is the restore just scheduled. *)
Lemma set_active_off_pending w :
  accessory_inv w →
  let w1 := set_active 0 w in
  let h := {| h_id := loop_next_id (w_loop w);
              h_when := loop_time (w_loop w) + RESTORE_DELAY;
              h_callback := RestorePower; h_cancelled := false |} in
  is_active (w_tv w1) = 0
  ∧ w_trace w1 = w_trace w ++ [PowerChanged false; KillallSteam]
  ∧ _power_restore_handle (w_tv w1) = Some (h_id h)
  ∧ loop_scheduled (w_loop w1) = loop_scheduled (restore_loop w) ++ [h]
  ∧ outstanding (w_loop w1) = [h]
  ∧ loop_time (w_loop w1) = loop_time (w_loop w).
Proof.
  intros [Hown _ _ _]. cbv zeta. rewrite set_active_off. simpl.
  rewrite restore_loop_time, restore_loop_next_id. split_and!; try done.
  unfold outstanding. simpl. rewrite filter_app.
  rewrite (filter_none _ (loop_scheduled (restore_loop w))); [done |].
  intros h Hin. by rewrite (restore_loop_all_cancelled w h).
Qed.

Lemma set_active_off_early w dt :
  accessory_inv w → dt < RESTORE_DELAY →
  let w1 := set_active 0 w in
  is_active (w_tv (advance dt w1)) = 0
  ∧ w_trace (advance dt w1) = w_trace w1.
Proof.
  intros Hinv Hdt. pose proof Hinv as [Hown _ _ _].
  destruct (set_active_off_pending w Hinv) as (Hact & Htr & Hh & Hsched & Hout & Htime).
  cbv zeta in *. destruct (advance_fields dt (set_active 0 w)) as (-> & -> & _ & _).
  destruct (run_until_idle (length (loop_scheduled (w_loop (set_active 0 w))))
              (loop_time (w_loop (set_active 0 w)) + dt) (set_active 0 w))
    as (Htv & Htr' & _ & _).
  { intros h. rewrite Hsched, Htime.
    intros [Hin | ->%list_elem_of_singleton]%elem_of_app.
    - left. by apply (restore_loop_all_cancelled w).
    - right. simpl. lia. }
  by rewrite Htv, Htr'.
Qed.

Lemma set_active_off_late w dt :
  accessory_inv w → RESTORE_DELAY ≤ dt →
  let w2 := advance dt (set_active 0 w) in
  is_active (w_tv w2) = 1
  ∧ _power_restore_handle (w_tv w2) = None
  ∧ outstanding (w_loop w2) = []
  ∧ w_trace w2 = w_trace w ++ [PowerChanged false; KillallSteam;
                               CharSetValue "Active" 1; PowerChanged true].
Proof.
  intros Hinv Hdt. pose proof Hinv as [Hown _ _ _].
  destruct (set_active_off_pending w Hinv) as (Hact & Htr & Hh & Hsched & Hout & Htime).
  destruct (set_active_inv 0 w Hinv) as [_ _ [Hnd _] _].
  cbv zeta in *. unfold outstanding.
  destruct (advance_fields dt (set_active 0 w)) as (-> & -> & _ & ->).
  destruct (run_until_fires (length (loop_scheduled (w_loop (set_active 0 w))))
              (loop_time (w_loop (set_active 0 w)) + dt) (set_active 0 w)
              {| h_id := loop_next_id (w_loop w);
                 h_when := loop_time (w_loop w) + RESTORE_DELAY;
                 h_callback := RestorePower; h_cancelled := false |})
    as (Htv & Htr' & _ & Hall); try done.
  - rewrite Hsched. apply elem_of_app. right. by apply list_elem_of_singleton.
  - rewrite Htime. simpl. lia.
  - intros h. rewrite Hsched.
    intros [Hin | ->%list_elem_of_singleton]%elem_of_app Hne; [|done].
    by apply (restore_loop_all_cancelled w).
  - rewrite Htv, Htr', Htr, <-app_assoc. split_and!; try done.
    apply filter_none. intros h Hin. by rewrite (Hall h Hin).
Qed.

Section PowerSetter.
Context `{codec : VdfCodec}.

(** C2. From any reachable state, [set_active 0] sets power to off, calls
    [on_power_changed(False)] and leaves exactly one outstanding timer, the
    restore due [RESTORE_DELAY] later. Nothing happens before it is due;
    once [RESTORE_DELAY] has passed, with no further call, power reads on,
    the timer is gone, and the hook has run exactly twice for that one
    setter call: with off, then with on. *)
Theorem set_active_off_restores_power w dt :
  reachable w →
  RESTORE_DELAY ≤ dt →
  let w1 := set_active 0 w in
  let w2 := advance dt w1 in
  (is_active (w_tv w1) = 0
   ∧ w_trace w1 = w_trace w ++ [PowerChanged false; KillallSteam]
   ∧ ∃ h, _power_restore_handle (w_tv w1) = Some (h_id h)
          ∧ outstanding (w_loop w1) = [h]
          ∧ h_callback h = RestorePower
          ∧ h_when h = loop_time (w_loop w) + RESTORE_DELAY)
  ∧ (∀ dt', dt' < RESTORE_DELAY →
       is_active (w_tv (advance dt' w1)) = 0
       ∧ w_trace (advance dt' w1) = w_trace w1)
  ∧ (is_active (w_tv w2) = 1
     ∧ _power_restore_handle (w_tv w2) = None
     ∧ outstanding (w_loop w2) = []
     ∧ w_trace w2 = w_trace w ++ [PowerChanged false; KillallSteam;
                                  CharSetValue "Active" 1; PowerChanged true]
     ∧ power_changes (w_trace w2) = power_changes (w_trace w) ++ [false; true]).
Proof.
  intros Hinv%reachable_inv Hdt w1 w2.
  destruct (set_active_off_pending w Hinv) as (Hact & Htr & Hh & _ & Hout & _).
  destruct (set_active_off_late w dt Hinv Hdt) as (Hact2 & Hh2 & Hout2 & Htr2).
  split_and!; try done.
  - eexists. split_and!; [exact Hh | exact Hout | done | done].
  - intros dt' Hdt'. by apply set_active_off_early.
  - subst w2 w1. by rewrite Htr2, power_changes_app.
Qed.

(** C3. In every reachable state at most one restore timer is outstanding,
    and it is the one the handle names. [set_active 1] cancels it and
    clears the handle, so however much time then passes, nothing fires:
    the only [on_power_changed(True)] is the one the setter itself made. *)
Theorem set_active_on_cancels_restore w :
  reachable w →
  let w1 := set_active 1 w in
  (length (outstanding (w_loop w)) ≤ 1)%nat
  ∧ (∀ h, h ∈ outstanding (w_loop w) → _power_restore_handle (w_tv w) = Some (h_id h))
  ∧ _power_restore_handle (w_tv w1) = None
  ∧ outstanding (w_loop w1) = []
  ∧ is_active (w_tv w1) = 1
  ∧ w_trace w1 = w_trace w ++ [PowerChanged true]
  ∧ ∀ dt, is_active (w_tv (advance dt w1)) = 1
          ∧ w_trace (advance dt w1) = w_trace w1
          ∧ outstanding (w_loop (advance dt w1)) = [].
Proof.
  intros Hinv%reachable_inv w1. pose proof Hinv as [Hown _ _ _].
  assert (Hall : ∀ h, h ∈ loop_scheduled (w_loop w1) → h_cancelled h = true).
  { subst w1. rewrite set_active_on. simpl. intros h. by apply restore_loop_all_cancelled. }
  split_and!.
  - by apply inv_at_most_one_outstanding.
  - intros h [Hc Hin]%outstanding_elem. by apply Hown.
  - subst w1. by rewrite set_active_on.
  - by apply outstanding_nil.
  - subst w1. by rewrite set_active_on.
  - subst w1. by rewrite set_active_on.
  - intros dt. unfold outstanding.
    destruct (advance_fields dt w1) as (-> & -> & _ & ->).
    destruct (run_until_idle (length (loop_scheduled (w_loop w1)))
                (loop_time (w_loop w1) + dt) w1) as (Htv & Htr & _ & Hsub).
    { intros h Hin. left. by apply Hall. }
    rewrite Htv, Htr. split_and!; [subst w1; by rewrite set_active_on | done |].
    apply filter_none. intros h Hin%Hsub. by rewrite (Hall h Hin).
Qed.
End PowerSetter.

(** ** The input setter *)

Lemma foldl_insert_lookup_None {V} (g : input → V) items (m : gmap Z V) v :
  foldl (λ m it, <[input_id it := g it]> m) m items !! v = None
  ↔ m !! v = None ∧ v ∉ input_id <$> items.
Proof.
  revert m. induction items as [|it items IH]; intros m; csimpl.
  - split; [intros Hm; split; [done | by intros ?%elem_of_nil] | by intros [? _]].
  - rewrite IH, lookup_insert_None, not_elem_of_cons. intuition congruence.
Qed.

Lemma label_dict_unknown items v :
  v ∉ input_id <$> items → label_dict items !! v = None.
Proof. intros Hv. by apply foldl_insert_lookup_None. Qed.

Lemma slug_dict_unknown items v :
  v ∉ input_id <$> items → slug_dict items !! v = None.
Proof. intros Hv. by apply foldl_insert_lookup_None. Qed.

Section InputSetter.
Context `{codec : VdfCodec}.

Lemma set_active_identifier_fields value io w :
  let slug := default "-" (id_to_slug (w_tv w) !! value) in
  let label := default "Unknown" (id_to_label (w_tv w) !! value) in
  (set_active_identifier value io w).1 = Ok tt
  ∧ w_tv (set_active_identifier value io w).2 = set_identifier value (w_tv w)
  ∧ w_loop (set_active_identifier value io w).2 = w_loop w
  ∧ w_files (set_active_identifier value io w).2 = (set_account slug io (w_files w)).2
  ∧ w_trace (set_active_identifier value io w).2
    = w_trace w ++ [InputChanged value label slug].
Proof.
  unfold set_active_identifier.
  rewrite on_input_changed_ok, on_input_changed_world. done.
Qed.

(** C7. For an identifier that no built input carries,
    [set_active_identifier] stores it all the same, returns normally, and
    calls [on_input_changed] with the label "Unknown" and the slug "-"
    (which the hook then hands to [set_account]). *)
Theorem set_active_identifier_unknown w value io :
  reachable w →
  value ∉ input_id <$> inputs (w_tv w) →
  (set_active_identifier value io w).1 = Ok tt
  ∧ active_identifier (w_tv (set_active_identifier value io w).2) = value
  ∧ w_trace (set_active_identifier value io w).2
    = w_trace w ++ [InputChanged value "Unknown" "-"]
  ∧ w_files (set_active_identifier value io w).2 = (set_account "-" io (w_files w)).2.
Proof.
  intros [_ _ _ [Hlabel Hslug]]%reachable_inv Hunknown.
  destruct (set_active_identifier_fields value io w) as (Hr & Htv & _ & Hfs & Htr).
  rewrite Hr, Htv, Hfs, Htr, Hlabel, Hslug.
  by rewrite label_dict_unknown, slug_dict_unknown.
Qed.
End InputSetter.

Lemma sample_world_reachable : reachable (codec := VdfText.codec) sample_world.
Proof. apply reach_boot. Qed.

(** C8. When the write of the selected account fails, whatever the reason,
    [set_active_identifier] still returns normally with the new identifier
    in place: nothing is rolled back and nothing reaches the caller; the
    files are left as the failed [set_account] left them. So the two
    selections can part: with the settings file selecting "carol_w" and the
    file not writable, selecting input 1 leaves the accessory on "bob99"
    and the file on "carol_w". *)
Theorem set_active_identifier_swallows_write_failure :
  (∀ (codec : VdfCodec) w value io e,
     let slug := default "-" (id_to_slug (w_tv w) !! value) in
     (set_account slug io (w_files w)).1 = Raise e →
     (set_active_identifier value io w).1 = Ok tt
     ∧ active_identifier (w_tv (set_active_identifier value io w).2) = value
     ∧ w_files (set_active_identifier value io w).2 = (set_account slug io (w_files w)).2)
  ∧ (let w := boot [(1, "Bob", "bob99"); (2, "carol_w", "carol_w")] (Some 2) 0 sample_files in
     let w' := (set_active_identifier (codec := VdfText.codec) 1 IoOpenFails w).2 in
     (set_account (codec := VdfText.codec) "bob99" IoOpenFails (w_files w)).1 = Raise OSError
     ∧ active_identifier (w_tv w') = 1
     ∧ id_to_slug (w_tv w') !! 1 = Some "bob99"
     ∧ get_account (codec := VdfText.codec) (w_files w') = Ok (VStr "carol_w")).
Proof.
  split.
  - intros codec w value io e slug _.
    destruct (set_active_identifier_fields value io w) as (Hr & Htv & _ & Hfs & _).
    by rewrite Hr, Htv, Hfs.
  - split_and!; vm_compute; reflexivity.
Qed.

(** ** Start-up *)

Lemma match_current_first current pre it post :
  (∀ x, x ∈ pre → input_slug x ≠ current) →
  input_slug it = current →
  match_current (VStr current) (pre ++ it :: post) = Some (input_id it).
Proof.
  intros Hpre Hit. induction pre as [|x pre IH]; simpl.
  - by rewrite bool_decide_true.
  - rewrite bool_decide_false by (apply Hpre; by left).
    apply IH. intros y Hy. apply Hpre. by right.
Qed.

Lemma match_current_none current items :
  (∀ x, x ∈ items → current ≠ VStr (input_slug x)) →
  match_current current items = None.
Proof.
  intros Hall. induction items as [|x items IH]; simpl; [done |].
  destruct current as [s|d]; simpl.
  - rewrite bool_decide_false.
    + apply IH. intros y Hy. apply Hall. by right.
    + intros Heq. apply (Hall x); [by left | by rewrite Heq].
  - apply IH. intros y Hy. apply Hall. by right.
Qed.

Section StartUp.
Context `{codec : VdfCodec}.

(** C9. A freshly built accessory is off. Its active identifier is the
    initial identifier it was given, else the first input's, else 0; and
    with the initial identifier the Steam branch resolves, that is: the
    identifier of the first input whose slug is the account the settings
    file selects, and the first input's (0 without inputs) when the file
    cannot be read or selects no input's slug. *)
Theorem initial_state input_items :
  (∀ initial_identifier,
     let a := (TelevisionAccessory_init input_items initial_identifier).1 in
     is_active a = 0
     ∧ _power_restore_handle a = None
     ∧ active_identifier a
       = match initial_identifier, input_items with
         | Some i, _ => i
         | None, it :: _ => input_id it
         | None, [] => 0
         end)
  ∧ (∀ files,
       let a := (TelevisionAccessory_init input_items
                   (resolve_initial input_items files)).1 in
       (∀ current pre it post,
          get_account files = Ok (VStr current) →
          input_items = pre ++ it :: post →
          input_slug it = current →
          (∀ x, x ∈ pre → input_slug x ≠ current) →
          active_identifier a = input_id it)
       ∧ ((∀ x, x ∈ input_items → get_account files ≠ Ok (VStr (input_slug x))) →
          active_identifier a
          = match input_items with
            | it :: _ => input_id it
            | [] => 0
            end)).
Proof.
  split.
  - intros [i|]; simpl; [done |]. by destruct input_items.
  - intros files. simpl. unfold resolve_initial. split.
    + intros current pre it post -> -> Hit Hpre.
      by rewrite match_current_first.
    + intros Hnone. destruct (get_account files) as [current|e]; [|done].
      rewrite match_current_none; [done |].
      intros x Hx ->. by apply (Hnone x).
Qed.
End StartUp.

(** ** The input catalogue *)

Lemma build_items_spec idx accounts items :
  build_items idx accounts items
  = items ++ omap (λ p, item_of p.1 p.2) (enumerate idx accounts).
Proof.
  revert idx items. induction accounts as [|account accounts IH]; intros idx items; csimpl.
  - by rewrite app_nil_r.
  - unfold item_of. destruct (truthy (dict_get "AccountName" account)); simpl.
    + by rewrite IH, <-app_assoc.
    + apply IH.
Qed.

Lemma enumerate_lookup {A} idx (l : list A) k :
  enumerate idx l !! k = (λ x, (idx + Z.of_nat k, x)) <$> l !! k.
Proof.
  revert idx k. induction l as [|x l IH]; intros idx [|k]; csimpl; try done.
  - by rewrite Z.add_0_r.
  - rewrite IH. destruct (l !! k); simpl; [|done]. do 2 f_equal. lia.
Qed.

Lemma enumerate_ids {A} idx (l : list A) :
  (enumerate idx l).*1 = seqZ idx (Z.of_nat (length l)).
Proof.
  revert idx. induction l as [|x l IH]; intros idx; csimpl; [done |].
  rewrite seqZ_cons by lia. rewrite IH. do 2 f_equal; lia.
Qed.

(** The identifiers handed out are positions in the file: increasing,
    without repeats, but with a gap wherever a record was skipped. *)
Lemma build_items_ids_sublist accounts :
  input_id <$> build_items 1 accounts []
  `sublist_of` seqZ 1 (Z.of_nat (length accounts)).
Proof.
  rewrite build_items_spec, app_nil_l, <-(enumerate_ids 1 accounts).
  induction (enumerate 1 accounts) as [|[i account] l IH]; csimpl; [done |].
  unfold item_of at 1. simpl.
  destruct (truthy (dict_get "AccountName" account)); csimpl.
  - by apply sublist_skip.
  - by apply sublist_cons.
Qed.

(** They are [1..N] when no record is skipped. *)
Lemma build_items_ids_dense accounts :
  (∀ account, account ∈ accounts → truthy (dict_get "AccountName" account) = true) →
  input_id <$> build_items 1 accounts [] = seqZ 1 (Z.of_nat (length accounts)).
Proof.
  intros Hall. rewrite build_items_spec, app_nil_l, <-(enumerate_ids 1 accounts).
  generalize 1. induction accounts as [|account accounts IH]; intros idx; csimpl; [done |].
  unfold item_of at 1. simpl. rewrite Hall by by left. csimpl.
  f_equal. apply IH. intros x Hx. apply Hall. by right.
Qed.

(** The [--inputs] branch drops the empty labels before it numbers the
    rest, so its identifiers are [1..N]. *)
Lemma override_inputs_ids slugify labels :
  input_id <$> override_inputs slugify labels = seqZ 1 (Z.of_nat (length labels)).
Proof.
  unfold override_inputs. rewrite <-list_fmap_compose, <-enumerate_ids.
  by apply list_fmap_ext.
Qed.

(** C1, on the code: a record without [AccountName] is skipped but still
    consumes its number, so the one input built from [gap_accounts] carries
    identifier 2, not 1. *)
Theorem build_items_skip_leaves_gap :
  let items := build_items 1 gap_accounts.*2 [] in
  items = [(2, "Bob", "bob99")]
  ∧ (steam_inputs (codec := VdfText.codec) (Ok gap_accounts) sample_files).1 = items
  ∧ input_id <$> items ≠ seqZ 1 (Z.of_nat (length items)).
Proof. split_and!; [reflexivity | reflexivity | discriminate]. Qed.

Section Catalogue_properties.
Context `{codec : VdfCodec}.

Lemma steam_inputs_items accounts files :
  build_items 1 accounts.*2 [] ≠ [] →
  (steam_inputs (Ok accounts) files).1 = build_items 1 accounts.*2 [].
Proof.
  unfold steam_inputs, try_steam_inputs. simpl.
  by destruct (build_items 1 accounts.*2 []).
Qed.

(** C10. A record with a non-empty [AccountName] and an empty
    [PersonaName] yields an input labelled with the account name: the
    input at its position in the file has that name as label and slug,
    and no other input carries its identifier. *)
Theorem empty_persona_falls_back_to_account_name accounts files k key account name :
  accounts !! k = Some (key, account) →
  dict_get "AccountName" account = Some name →
  name ≠ "" →
  dict_get "PersonaName" account = Some "" →
  let items := (steam_inputs (Ok accounts) files).1 in
  (Z.of_nat k + 1, name, name) ∈ items
  ∧ ∀ it, it ∈ items → input_id it = Z.of_nat k + 1 → input_label it = name.
Proof.
  intros Hk Hname Hne Hpersona.
  assert (Hitem : item_of (1 + Z.of_nat k) account = Some (Z.of_nat k + 1, name, name)).
  { unfold item_of, persona_or. rewrite Hname, Hpersona. simpl.
    destruct (String.eqb_spec name ""); [done |]. simpl. do 3 f_equal. lia. }
  assert (Hin : (Z.of_nat k + 1, name, name) ∈ build_items 1 accounts.*2 []).
  { rewrite build_items_spec, app_nil_l. apply list_elem_of_omap.
    exists (1 + Z.of_nat k, account). split; [|done].
    apply list_elem_of_lookup. exists k.
    by rewrite enumerate_lookup, list_lookup_fmap, Hk. }
  cbv zeta. rewrite steam_inputs_items by (intros Hnil; rewrite Hnil in Hin; by apply elem_of_nil in Hin).
  split; [done |].
  intros it. rewrite build_items_spec, app_nil_l.
  intros ([i account'] & [k' Hk']%list_elem_of_lookup & Hit)%list_elem_of_omap Hid.
  rewrite enumerate_lookup, list_lookup_fmap in Hk'. simpl in Hit.
  destruct (accounts !! k') as [[key' account'']|] eqn:Hk''; [|done].
  simpl in Hk'. injection Hk' as <- <-.
  unfold item_of in Hit. destruct (truthy _); [|done]. injection Hit as <-.
  unfold input_id in Hid. simpl in Hid. assert (k' = k) as -> by lia.
  rewrite Hk'' in Hk. injection Hk as -> ->.
  unfold input_label, persona_or. simpl. by rewrite Hname, Hpersona.
Qed.
End Catalogue_properties.

(** ** The statements at concrete inputs *)

(** A restore is already pending, one time unit old, when power is set to
    off again. *)
Lemma set_active_off_restores_power_witness :
  let w := advance 1 (set_active 0 sample_world) in
  let w1 := set_active 0 w in
  let w2 := advance 2 w1 in
  (is_active (w_tv w1) = 0
   ∧ w_trace w1 = w_trace w ++ [PowerChanged false; KillallSteam]
   ∧ ∃ h, _power_restore_handle (w_tv w1) = Some (h_id h)
          ∧ outstanding (w_loop w1) = [h]
          ∧ h_callback h = RestorePower
          ∧ h_when h = loop_time (w_loop w) + RESTORE_DELAY)
  ∧ (∀ dt', dt' < RESTORE_DELAY →
       is_active (w_tv (advance dt' w1)) = 0
       ∧ w_trace (advance dt' w1) = w_trace w1)
  ∧ (is_active (w_tv w2) = 1
     ∧ _power_restore_handle (w_tv w2) = None
     ∧ outstanding (w_loop w2) = []
     ∧ w_trace w2 = w_trace w ++ [PowerChanged false; KillallSteam;
                                  CharSetValue "Active" 1; PowerChanged true]
     ∧ power_changes (w_trace w2) = power_changes (w_trace w) ++ [false; true]).
Proof.
  apply (set_active_off_restores_power (codec := VdfText.codec)
           (advance 1 (set_active 0 sample_world)) 2).
  - apply reach_advance; [lia |]. apply reach_set_active, sample_world_reachable.
  - unfold RESTORE_DELAY. lia.
Defined.

(** Power is set to on while the restore scheduled by an earlier off is
    pending. *)
Lemma set_active_on_cancels_restore_witness :
  let w := set_active 0 sample_world in
  let w1 := set_active 1 w in
  (length (outstanding (w_loop w)) ≤ 1)%nat
  ∧ (∀ h, h ∈ outstanding (w_loop w) → _power_restore_handle (w_tv w) = Some (h_id h))
  ∧ _power_restore_handle (w_tv w1) = None
  ∧ outstanding (w_loop w1) = []
  ∧ is_active (w_tv w1) = 1
  ∧ w_trace w1 = w_trace w ++ [PowerChanged true]
  ∧ ∀ dt, is_active (w_tv (advance dt w1)) = 1
          ∧ w_trace (advance dt w1) = w_trace w1
          ∧ outstanding (w_loop (advance dt w1)) = [].
Proof.
  apply (set_active_on_cancels_restore (codec := VdfText.codec)
           (set_active 0 sample_world)).
  apply reach_set_active, sample_world_reachable.
Defined.

Lemma set_active_identifier_unknown_witness :
  (set_active_identifier (codec := VdfText.codec) 7 IoOk sample_world).1 = Ok tt
  ∧ active_identifier
      (w_tv (set_active_identifier (codec := VdfText.codec) 7 IoOk sample_world).2) = 7
  ∧ w_trace (set_active_identifier (codec := VdfText.codec) 7 IoOk sample_world).2
    = w_trace sample_world ++ [InputChanged 7 "Unknown" "-"]
  ∧ w_files (set_active_identifier (codec := VdfText.codec) 7 IoOk sample_world).2
    = (set_account (codec := VdfText.codec) "-" IoOk (w_files sample_world)).2.
Proof.
  apply (set_active_identifier_unknown (codec := VdfText.codec) sample_world 7 IoOk).
  - apply sample_world_reachable.
  - vm_compute. intros Hin. apply list_elem_of_In in Hin. simpl in Hin.
    destruct Hin as [Hin | [Hin | []]]; discriminate Hin.
Defined.

Lemma set_active_identifier_swallows_write_failure_witness :
  (set_active_identifier (codec := VdfText.codec) 1 IoOpenFails sample_world).1 = Ok tt
  ∧ active_identifier
      (w_tv (set_active_identifier (codec := VdfText.codec) 1 IoOpenFails sample_world).2) = 1
  ∧ w_files (set_active_identifier (codec := VdfText.codec) 1 IoOpenFails sample_world).2
    = (set_account (codec := VdfText.codec) "bob99" IoOpenFails (w_files sample_world)).2.
Proof.
  apply (proj1 set_active_identifier_swallows_write_failure
           VdfText.codec sample_world 1 IoOpenFails OSError).
  vm_compute. reflexivity.
Defined.

Lemma empty_persona_falls_back_to_account_name_witness :
  let accounts :=
    [("76561198000000001", [("AccountName", "bob99"); ("PersonaName", "Bob")]);
     ("76561198000000002", [("AccountName", "carol_w"); ("PersonaName", "")])] in
  let items := (steam_inputs (codec := VdfText.codec) (Ok accounts) sample_files).1 in
  (Z.of_nat 1 + 1, "carol_w", "carol_w") ∈ items
  ∧ ∀ it, it ∈ items → input_id it = Z.of_nat 1 + 1 → input_label it = "carol_w".
Proof.
  apply (empty_persona_falls_back_to_account_name (codec := VdfText.codec)
           _ sample_files 1 "76561198000000002"
           [("AccountName", "carol_w"); ("PersonaName", "")] "carol_w").
  - reflexivity.
  - reflexivity.
  - discriminate.
  - reflexivity.
Defined.

(** The end-to-end scenario of the spec: accounts bob99 ("Bob") and carol_w
    (no display name), the settings file selecting carol_w. *)
Example end_to_end_scenario :
  let '(items, initial) := steam_inputs (codec := VdfText.codec) (Ok sample_accounts) sample_files in
  let w := boot items initial 0 sample_files in
  let w' := (set_active_identifier (codec := VdfText.codec) 1 IoOk w).2 in
  items = [(1, "Bob", "bob99"); (2, "carol_w", "carol_w")]
  ∧ active_identifier (w_tv w) = 2
  ∧ is_active (w_tv w) = 0
  ∧ w_trace w' = w_trace w ++ [InputChanged 1 "Bob" "bob99"]
  ∧ get_account (codec := VdfText.codec) (w_files w') = Ok (VStr "bob99").
Proof. vm_compute. split_and!; reflexivity. Qed.

(** * Further properties *)

(** ** The catalogue of the Steam branch *)

Lemma item_of_Some idx account it :
  item_of idx account = Some it →
  input_id it = idx
  ∧ dict_get "AccountName" account = Some (input_slug it)
  ∧ input_slug it ≠ ""
  ∧ input_label it = persona_or (dict_get "PersonaName" account) (input_slug it).
Proof.
  unfold item_of. destruct (dict_get "AccountName" account) as [name|]; simpl; [|done].
  destruct (String.eqb_spec name ""); simpl; [done |].
  intros [= <-]. done.
Qed.

Lemma persona_or_nonempty persona name : name ≠ "" → persona_or persona name ≠ "".
Proof.
  intros Hname. unfold persona_or. destruct persona as [p|]; simpl; [|done].
  by destruct (String.eqb_spec p "").
Qed.

Lemma build_items_elem accounts it :
  it ∈ build_items 1 accounts [] ↔
  ∃ k account, accounts !! k = Some account ∧ item_of (1 + Z.of_nat k) account = Some it.
Proof.
  rewrite build_items_spec, app_nil_l, list_elem_of_omap. split.
  - intros ([i account] & [k Hk]%list_elem_of_lookup & Hit).
    rewrite enumerate_lookup in Hk.
    destruct (accounts !! k) as [account'|] eqn:Hk'; [|done].
    injection Hk as <- <-. by exists k, account'.
  - intros (k & account & Hk & Hit). exists (1 + Z.of_nat k, account). split; [|done].
    apply list_elem_of_lookup. exists k. by rewrite enumerate_lookup, Hk.
Qed.

Lemma build_items_nil accounts :
  build_items 1 accounts [] = [] ↔
  ∀ account, account ∈ accounts → truthy (dict_get "AccountName" account) = false.
Proof.
  split.
  - intros Hnil account [k Hk]%list_elem_of_lookup.
    destruct (truthy (dict_get "AccountName" account)) eqn:Ht; [|done].
    assert (Hin : (1 + Z.of_nat k,
                   persona_or (dict_get "PersonaName" account)
                     (default "" (dict_get "AccountName" account)),
                   default "" (dict_get "AccountName" account))
                  ∈ build_items 1 accounts []).
    { apply build_items_elem. exists k, account. split; [done |].
      unfold item_of. by rewrite Ht. }
    rewrite Hnil in Hin. by apply elem_of_nil in Hin.
  - intros Hall. destruct (build_items 1 accounts []) as [|it items] eqn:Hb; [done |].
    assert (Hin : it ∈ build_items 1 accounts []) by (rewrite Hb; by left).
    apply build_items_elem in Hin as (k & account & Hk & Hit).
    unfold item_of in Hit. rewrite Hall in Hit; [done |].
    apply list_elem_of_lookup. by exists k.
Qed.

Lemma catalogue_ids_increasing idx accounts :
  let ids := input_id <$> omap (λ p, item_of p.1 p.2) (enumerate idx accounts) in
  (∀ x, x ∈ ids → idx ≤ x < idx + Z.of_nat (length accounts))
  ∧ ∀ (i j : nat) x y, ids !! i = Some x → ids !! j = Some y → (i < j)%nat → x < y.
Proof.
  revert idx. induction accounts as [|account accounts IH]; intros idx; csimpl.
  - split; [by intros x ?%elem_of_nil | by intros i j x y ?].
  - destruct (IH (idx + 1)) as [Hbound Hinc]. cbv zeta in *.
    destruct (item_of idx account) as [it|] eqn:Hit; csimpl.
    + apply item_of_Some in Hit as (Hid & _). rewrite Hid. split.
      * intros x [-> | Hx]%elem_of_cons; [lia |]. specialize (Hbound x Hx). lia.
      * intros [|i] [|j] x y Hi Hj Hlt; simpl in *; try lia.
        -- injection Hi as <-. apply list_elem_of_lookup_2 in Hj.
           specialize (Hbound y Hj). lia.
        -- eapply (Hinc i j); [done | done | lia].
    + split; [|done]. intros x Hx. specialize (Hbound x Hx). lia.
Qed.

Section CatalogueExtras.
Context `{codec : VdfCodec}.

(** X1. The Steam branch never hands [run] an empty list of inputs: when
    [get_accounts()] raises, or no record has a non-empty [AccountName], it
    is the two fall-back inputs with no initial identifier; otherwise it is
    the inputs built from the records. *)
Theorem steam_inputs_never_empty accounts files :
  (steam_inputs accounts files).1 ≠ []
  ∧ (∀ e, accounts = Raise e → steam_inputs accounts files = (FALLBACK_INPUTS, None))
  ∧ (∀ accs, accounts = Ok accs →
       (∀ a, a ∈ accs.*2 → truthy (dict_get "AccountName" a) = false) →
       steam_inputs accounts files = (FALLBACK_INPUTS, None))
  ∧ (∀ accs a, accounts = Ok accs →
       a ∈ accs.*2 → truthy (dict_get "AccountName" a) = true →
       steam_inputs accounts files
       = (build_items 1 accs.*2 [], resolve_initial (build_items 1 accs.*2 []) files)).
Proof.
  unfold steam_inputs, try_steam_inputs. split_and!.
  - destruct accounts as [accs|e]; simpl; [|done].
    by destruct (build_items 1 accs.*2 []).
  - by intros e ->.
  - intros accs -> Hall. simpl. by rewrite (proj2 (build_items_nil _) Hall).
  - intros accs a -> Ha Ht. simpl.
    destruct (build_items 1 accs.*2 []) eqn:Hb; [|done].
    pose proof (proj1 (build_items_nil _) Hb a Ha). congruence.
Qed.

(** X2. In the Steam branch the accessory always starts on an input it
    advertises: the initial identifier, when one is resolved, is the
    identifier of an input whose slug is the account the settings file
    selects, and the active identifier after [__init__] is the identifier
    of one of the inputs. *)
Theorem steam_start_selects_an_input accounts files :
  let items := (steam_inputs accounts files).1 in
  let initial := (steam_inputs accounts files).2 in
  (∀ i, initial = Some i →
        ∃ it, it ∈ items ∧ input_id it = i
              ∧ get_account files = Ok (VStr (input_slug it)))
  ∧ active_identifier (TelevisionAccessory_init items initial).1 ∈ input_id <$> items.
Proof.
  assert (Hmatch : ∀ current items i,
            match_current current items = Some i →
            ∃ it, it ∈ items ∧ input_id it = i ∧ current = VStr (input_slug it)).
  { intros current items i. induction items as [|it items IH]; simpl; [done |].
    destruct (slug_equals (input_slug it) current) eqn:Heq.
    - intros [= <-]. exists it. split_and!; [by left | done |].
      destruct current as [s|d]; [|done]. simpl in Heq.
      apply bool_decide_eq_true in Heq. by rewrite Heq.
    - intros (it' & Hin & Hid & Hcur)%IH. exists it'. split_and!; [by right | done..]. }
  assert (Hres : ∀ items i, resolve_initial items files = Some i →
            ∃ it, it ∈ items ∧ input_id it = i
                  ∧ get_account files = Ok (VStr (input_slug it))).
  { intros items i. unfold resolve_initial.
    destruct (get_account files) as [current|e]; [|done].
    intros (it & Hin & Hid & ->)%Hmatch. by exists it. }
  assert (Hinit : ∀ i, (steam_inputs accounts files).2 = Some i →
            ∃ it, it ∈ (steam_inputs accounts files).1 ∧ input_id it = i
                  ∧ get_account files = Ok (VStr (input_slug it))).
  { unfold steam_inputs, try_steam_inputs.
    destruct accounts as [accs|e]; simpl; [|done].
    destruct (build_items 1 accs.*2 []) as [|it items] eqn:Hb; simpl; [done |].
    apply Hres. }
  cbv zeta. split; [exact Hinit |].
  destruct (steam_inputs_never_empty accounts files) as [Hne _].
  destruct ((steam_inputs accounts files).2) as [i|] eqn:Hi; simpl.
  - destruct (Hinit i eq_refl) as (it & Hin & <- & _). by apply list_elem_of_fmap_2.
  - destruct ((steam_inputs accounts files).1) as [|it items]; [done |].
    csimpl. by left.
Qed.
End CatalogueExtras.

(** X3. Every input the Steam loop builds stands for a record of the file:
    its identifier is the record's position (from 1), its slug the record's
    [AccountName], which is not empty, and its label the record's
    [PersonaName] unless that is missing or empty, so never empty either. *)
Theorem build_items_sound accounts it :
  it ∈ build_items 1 accounts [] →
  ∃ (k : nat) account,
    accounts !! k = Some account
    ∧ input_id it = Z.of_nat k + 1
    ∧ dict_get "AccountName" account = Some (input_slug it)
    ∧ input_slug it ≠ ""
    ∧ input_label it ≠ ""
    ∧ input_label it = persona_or (dict_get "PersonaName" account) (input_slug it).
Proof.
  intros (k & account & Hk & Hit)%build_items_elem.
  apply item_of_Some in Hit as (Hid & Hname & Hne & Hlabel).
  exists k, account. split_and!; [done | lia | done | done | | done].
  rewrite Hlabel. by apply persona_or_nonempty.
Qed.

Lemma build_items_sound_witness :
  ∃ (k : nat) account,
    sample_accounts.*2 !! k = Some account
    ∧ input_id (2, "carol_w", "carol_w") = Z.of_nat k + 1
    ∧ dict_get "AccountName" account = Some (input_slug (2, "carol_w", "carol_w"))
    ∧ input_slug (2, "carol_w", "carol_w") ≠ ""
    ∧ input_label (2, "carol_w", "carol_w") ≠ ""
    ∧ input_label (2, "carol_w", "carol_w")
      = persona_or (dict_get "PersonaName" account) (input_slug (2, "carol_w", "carol_w")).
Proof.
  apply (build_items_sound sample_accounts.*2 (2, "carol_w", "carol_w")).
  vm_compute. right. left.
Defined.

(** X4. The identifiers of the Steam branch are positions in the file:
    each lies between 1 and the number of records, and they increase
    strictly along the list, so no two inputs share one. *)
Theorem build_items_ids_increasing accounts :
  let ids := input_id <$> build_items 1 accounts [] in
  (∀ x, x ∈ ids → 1 ≤ x ≤ Z.of_nat (length accounts))
  ∧ (∀ (i j : nat) x y, ids !! i = Some x → ids !! j = Some y → (i < j)%nat → x < y)
  ∧ NoDup ids.
Proof.
  cbv zeta. rewrite build_items_spec, app_nil_l.
  destruct (catalogue_ids_increasing 1 accounts) as [Hbound Hinc]. cbv zeta in *.
  split_and!.
  - intros x Hx. specialize (Hbound x Hx). lia.
  - exact Hinc.
  - apply NoDup_alt. intros i j x Hi Hj.
    destruct (Nat.lt_trichotomy i j) as [Hlt | [-> | Hlt]]; [|done |].
    + pose proof (Hinc i j x x Hi Hj Hlt). lia.
    + pose proof (Hinc j i x x Hj Hi Hlt). lia.
Qed.

(** ** Selecting a known input *)

Lemma foldl_insert_lookup_notin {V} (g : input → V) items (m : gmap Z V) v :
  v ∉ input_id <$> items →
  foldl (λ m it, <[input_id it := g it]> m) m items !! v = m !! v.
Proof.
  revert m. induction items as [|it items IH]; intros m; csimpl; [done |].
  intros [Hne Hnotin]%not_elem_of_cons. rewrite IH by done.
  by rewrite lookup_insert_ne.
Qed.

(** A dict comprehension keeps, for each identifier, the last item that
    carries it. *)
Lemma foldl_insert_lookup_last {V} (g : input → V) pre it post (m : gmap Z V) :
  input_id it ∉ input_id <$> post →
  foldl (λ m it, <[input_id it := g it]> m) m (pre ++ it :: post) !! input_id it
  = Some (g it).
Proof.
  intros Hpost. rewrite foldl_app. csimpl.
  rewrite foldl_insert_lookup_notin by done. apply lookup_insert_eq.
Qed.

Lemma NoDup_fmap_split {A B} (f : A → B) (l : list A) x :
  NoDup (f <$> l) → x ∈ l →
  ∃ pre post, l = pre ++ x :: post ∧ (f x ∉ f <$> pre) ∧ (f x ∉ f <$> post).
Proof.
  intros Hnd (pre & post & ->)%list_elem_of_split. exists pre, post.
  rewrite fmap_app, fmap_cons in Hnd.
  apply NoDup_app in Hnd as (_ & Hpre & [Hpost _]%NoDup_cons).
  split_and!; [done | | done].
  intros Hin. apply (Hpre _ Hin). by left.
Qed.

Lemma run_until_files fuel target w : w_files (run_until fuel target w) = w_files w.
Proof.
  revert w. induction fuel as [|fuel IH]; intros w; simpl; [done |].
  destruct (run_next target w) as [w'|] eqn:Hnext; [|done].
  apply run_next_Some in Hnext as (h & _ & _ & ->). rewrite IH.
  by destruct (h_cancelled h).
Qed.

Section InputSetterExtras.
Context `{codec : VdfCodec}.

(** X5. Selecting an identifier that an input carries stores it and calls
    [on_input_changed] with that input's label and slug, so [set_account]
    is tried with the slug; among inputs sharing the identifier the last
    one of the list is the one that counts. *)
Theorem set_active_identifier_known w io pre it post :
  reachable w →
  inputs (w_tv w) = pre ++ it :: post →
  input_id it ∉ input_id <$> post →
  (set_active_identifier (input_id it) io w).1 = Ok tt
  ∧ active_identifier (w_tv (set_active_identifier (input_id it) io w).2) = input_id it
  ∧ w_trace (set_active_identifier (input_id it) io w).2
    = w_trace w ++ [InputChanged (input_id it) (input_label it) (input_slug it)]
  ∧ w_files (set_active_identifier (input_id it) io w).2
    = (set_account (input_slug it) io (w_files w)).2.
Proof.
  intros [_ _ _ [Hlabel Hslug]]%reachable_inv Hinputs Hlast.
  destruct (set_active_identifier_fields (input_id it) io w) as (Hr & Htv & _ & Hfs & Htr).
  rewrite Hr, Htv, Hfs, Htr, Hlabel, Hslug, Hinputs.
  unfold label_dict, slug_dict. by rewrite !foldl_insert_lookup_last.
Qed.

(** X6. With identifiers and slugs each unique, a well-formed settings file
    and a write that goes through, selecting an input persists it: the
    settings file then names the input's slug, and resolving the initial
    identifier against the same inputs (a restart) gives the identifier
    just selected. *)
Theorem selection_survives_restart w it registry :
  reachable w →
  it ∈ inputs (w_tv w) →
  NoDup (input_id <$> inputs (w_tv w)) →
  NoDup (input_slug <$> inputs (w_tv w)) →
  well_formed_registry (w_files w) registry →
  write_back_readable (input_slug it) registry →
  let w' := (set_active_identifier (input_id it) IoOk w).2 in
  get_account (w_files w') = Ok (VStr (input_slug it))
  ∧ resolve_initial (inputs (w_tv w')) (w_files w') = Some (input_id it)
  ∧ active_identifier
      (TelevisionAccessory_init (inputs (w_tv w'))
         (resolve_initial (inputs (w_tv w')) (w_files w'))).1
    = active_identifier (w_tv w').
Proof.
  intros Hreach Hin Hids Hslugs Hwf Hcodec w'.
  destruct (NoDup_fmap_split input_id _ it Hids Hin) as (pre & post & Hsplit & _ & Hpost).
  destruct (NoDup_fmap_split input_slug _ it Hslugs Hin)
    as (pre' & post' & Hsplit' & Hpre' & _).
  destruct (set_active_identifier_known w IoOk pre it post Hreach Hsplit Hpost)
    as (_ & Hact & _ & Hfiles).
  destruct (set_active_identifier_fields (input_id it) IoOk w) as (_ & Htv & _).
  destruct (set_account_written (w_files w) registry (input_slug it) Hwf)
    as (registry' & Hset & Hrun).
  assert (Hget : get_account (w_files w') = Ok (VStr (input_slug it))).
  { subst w'. rewrite Hfiles, Hrun. unfold get_account. simpl.
    rewrite (load_file_insert _ _ _ registry') by by apply Hcodec.
    exact (getitem_setitem_path _ _ _ _ _ Hset). }
  assert (Hres : resolve_initial (inputs (w_tv w')) (w_files w') = Some (input_id it)).
  { unfold resolve_initial. rewrite Hget. subst w'. rewrite Htv. simpl. rewrite Hsplit'.
    apply match_current_first; [|done].
    intros x Hx Heq. apply Hpre'. rewrite <-Heq. by apply list_elem_of_fmap_2. }
  split_and!; [done | done |]. rewrite Hres. subst w'. by rewrite Hact.
Qed.

(** X7. Only [registry.vdf] is ever written: [set_account], whatever the
    outcome of its write, leaves every other file as it was, so
    [get_accounts()] returns what it returned before; the same holds for
    [set_active_identifier]; and the power setter and the restore timer do
    not touch the files at all. *)
Theorem only_registry_is_written :
  (∀ account io fs path,
     path ≠ REGISTRY → (set_account account io fs).2 !! path = fs !! path)
  ∧ (∀ account io fs, get_accounts (set_account account io fs).2 = get_accounts fs)
  ∧ (∀ value io w path,
       path ≠ REGISTRY →
       w_files (set_active_identifier value io w).2 !! path = w_files w !! path)
  ∧ (∀ value w, w_files (set_active value w) = w_files w)
  ∧ (∀ dt w, w_files (advance dt w) = w_files w).
Proof.
  assert (Hset : ∀ account io fs path,
            path ≠ REGISTRY → (set_account account io fs).2 !! path = fs !! path).
  { intros account io fs path Hpath. unfold set_account.
    destruct (load_file REGISTRY fs) as [registry|e]; [|done].
    destruct (setitem_path _ _ _ registry) as [registry'|e]; [|done].
    destruct io; simpl; [|done |]; by rewrite lookup_insert_ne. }
  split_and!.
  - exact Hset.
  - intros account io fs. unfold get_accounts, load_file. by rewrite Hset.
  - intros value io w path Hpath.
    destruct (set_active_identifier_fields value io w) as (_ & _ & _ & -> & _).
    by apply Hset.
  - intros value w. unfold set_active, cancel_restore.
    repeat (destruct (decide _) || destruct (_power_restore_handle _));
      simpl; rewrite ?on_power_changed_tv; by destruct (bool_decide _).
  - intros dt w. destruct (advance_fields dt w) as (_ & _ & -> & _).
    apply run_until_files.
Qed.
End InputSetterExtras.

Lemma set_active_identifier_known_witness :
  (set_active_identifier (codec := VdfText.codec) (input_id (1, "Bob", "bob99")) IoOk
     sample_world).1 = Ok tt
  ∧ active_identifier
      (w_tv (set_active_identifier (codec := VdfText.codec)
               (input_id (1, "Bob", "bob99")) IoOk sample_world).2)
    = input_id (1, "Bob", "bob99")
  ∧ w_trace (set_active_identifier (codec := VdfText.codec)
               (input_id (1, "Bob", "bob99")) IoOk sample_world).2
    = w_trace sample_world
      ++ [InputChanged (input_id (1, "Bob", "bob99")) (input_label (1, "Bob", "bob99"))
            (input_slug (1, "Bob", "bob99"))]
  ∧ w_files (set_active_identifier (codec := VdfText.codec)
               (input_id (1, "Bob", "bob99")) IoOk sample_world).2
    = (set_account (codec := VdfText.codec) (input_slug (1, "Bob", "bob99")) IoOk
         (w_files sample_world)).2.
Proof.
  apply (set_active_identifier_known (codec := VdfText.codec) sample_world IoOk
           [] (1, "Bob", "bob99") [(2, "carol_w", "carol_w")]).
  - apply sample_world_reachable.
  - reflexivity.
  - vm_compute. intros Hin. apply list_elem_of_In in Hin. simpl in Hin.
    destruct Hin as [Hin | []]; discriminate Hin.
Defined.

Lemma selection_survives_restart_witness :
  let w' := (set_active_identifier (codec := VdfText.codec)
               (input_id (1, "Bob", "bob99")) IoOk sample_world).2 in
  get_account (codec := VdfText.codec) (w_files w')
  = Ok (VStr (input_slug (1, "Bob", "bob99")))
  ∧ resolve_initial (codec := VdfText.codec) (inputs (w_tv w')) (w_files w')
    = Some (input_id (1, "Bob", "bob99"))
  ∧ active_identifier
      (TelevisionAccessory_init (inputs (w_tv w'))
         (resolve_initial (codec := VdfText.codec) (inputs (w_tv w')) (w_files w'))).1
    = active_identifier (w_tv w').
Proof.
  apply (selection_survives_restart (codec := VdfText.codec) sample_world
           (1, "Bob", "bob99") sample_registry).
  - apply sample_world_reachable.
  - vm_compute. left.
  - vm_compute. repeat constructor; intros Hin; apply list_elem_of_In in Hin; simpl in Hin;
      intuition discriminate.
  - vm_compute. repeat constructor; intros Hin; apply list_elem_of_In in Hin; simpl in Hin;
      intuition discriminate.
  - split; [vm_compute; reflexivity | eexists; reflexivity].
  - intros registry' Hset. vm_compute in Hset. injection Hset as <-.
    vm_compute. reflexivity.
Defined.

(** ** What the restore timer does, and when *)


(** No outstanding timer is due: time passes and nothing happens. *)
Lemma advance_idle dt w :
  (∀ h, h ∈ outstanding (w_loop w) → loop_time (w_loop w) + dt < h_when h) →
  w_tv (advance dt w) = w_tv w
  ∧ w_trace (advance dt w) = w_trace w
  ∧ loop_scheduled (w_loop (advance dt w)) ⊆ loop_scheduled (w_loop w).
Proof.
  intros Hlate. destruct (advance_fields dt w) as (-> & -> & _ & ->).
  destruct (run_until_idle (length (loop_scheduled (w_loop w)))
              (loop_time (w_loop w) + dt) w) as (Htv & Htr & _ & Hsub); [|done].
  intros h Hin. destruct (h_cancelled h) eqn:Hc; [by left | right].
  apply Hlate. by apply outstanding_elem.
Qed.

(** The outstanding timer is due: it runs, and nothing is left. *)
Lemma advance_fires dt w h0 :
  accessory_inv w →
  h0 ∈ outstanding (w_loop w) →
  h_when h0 ≤ loop_time (w_loop w) + dt →
  w_tv (advance dt w) = set_is_active 1 (set_handle None (w_tv w))
  ∧ w_trace (advance dt w) = w_trace w ++ [CharSetValue "Active" 1; PowerChanged true]
  ∧ outstanding (w_loop (advance dt w)) = [].
Proof.
  intros [Hown _ [Hnd _] _] [Hc0 Hin0]%outstanding_elem Hdue. unfold outstanding.
  destruct (advance_fields dt w) as (-> & -> & _ & ->).
  destruct (run_until_fires (length (loop_scheduled (w_loop w)))
              (loop_time (w_loop w) + dt) w h0) as (Htv & Htr & _ & Hall); try done.
  - intros h Hin Hne. destruct (h_cancelled h) eqn:Hc; [done |].
    pose proof (Hown h Hin Hc). pose proof (Hown h0 Hin0 Hc0). congruence.
  - split_and!; [done | done |].
    apply filter_none. intros h Hin. by rewrite (Hall h Hin).
Qed.

Lemma outstanding_singleton w h l :
  accessory_inv w → outstanding (w_loop w) = h :: l → l = [].
Proof.
  intros Hone%inv_at_most_one_outstanding Hout. rewrite Hout in Hone.
  destruct l; [done | simpl in Hone; lia].
Qed.




Section PowerExtras.
Context `{codec : VdfCodec}.

(** X8. Letting time pass does one of two things, whatever the amount: it
    leaves the accessory and the log as they are, or, when a restore was
    outstanding and has come due, it runs that one restore: power reads
    on, the handle is cleared, and the log grows by the push of Active = 1
    and one [on_power_changed(True)]. It never restarts Steam. *)
Theorem advance_runs_at_most_one_restore w dt :
  reachable w →
  (w_tv (advance dt w) = w_tv w ∧ w_trace (advance dt w) = w_trace w)
  ∨ ((∃ h, h ∈ outstanding (w_loop w) ∧ h_when h ≤ loop_time (w_loop w) + dt)
     ∧ is_active (w_tv (advance dt w)) = 1
     ∧ _power_restore_handle (w_tv (advance dt w)) = None
     ∧ active_identifier (w_tv (advance dt w)) = active_identifier (w_tv w)
     ∧ w_trace (advance dt w)
       = w_trace w ++ [CharSetValue "Active" 1; PowerChanged true]).
Proof.
  intros Hinv%reachable_inv.
  destruct (outstanding (w_loop w)) as [|h l] eqn:Hout.
  - left. destruct (advance_idle dt w) as (Htv & Htr & _); [|done].
    rewrite Hout. by intros h ?%elem_of_nil.
  - assert (l = []) as -> by by eapply outstanding_singleton.
    destruct (Z.le_gt_cases (h_when h) (loop_time (w_loop w) + dt)) as [Hdue | Hlate].
    + right. destruct (advance_fires dt w h Hinv) as (Htv & Htr & _);
        [rewrite Hout; by left | done |].
      rewrite Htv, Htr. split_and!; try done. exists h. split; [by left | done].
    + left. destruct (advance_idle dt w) as (Htv & Htr & _); [|done].
      rewrite Hout. intros h' ->%list_elem_of_singleton. lia.
Qed.

End PowerExtras.



Section TimingExtras.
Context `{codec : VdfCodec}.


End TimingExtras.

Lemma advance_runs_at_most_one_restore_witness :
  let w := set_active 0 sample_world in
  (w_tv (advance 5 w) = w_tv w ∧ w_trace (advance 5 w) = w_trace w)
  ∨ ((∃ h, h ∈ outstanding (w_loop w) ∧ h_when h ≤ loop_time (w_loop w) + 5)
     ∧ is_active (w_tv (advance 5 w)) = 1
     ∧ _power_restore_handle (w_tv (advance 5 w)) = None
     ∧ active_identifier (w_tv (advance 5 w)) = active_identifier (w_tv w)
     ∧ w_trace (advance 5 w)
       = w_trace w ++ [CharSetValue "Active" 1; PowerChanged true]).
Proof.
  apply (advance_runs_at_most_one_restore (codec := VdfText.codec)
           (set_active 0 sample_world) 5).
  apply reach_set_active, sample_world_reachable.
Defined.



(** ** Labels, slugs and input types *)

Lemma isalnum_lower_char c :
  isalnum (lower_char c) = islower (lower_char c) || isdigit (lower_char c).
Proof. destruct c as [[] [] [] [] [] [] [] []]; reflexivity. Qed.

Lemma is_slug_char c :
  islower c || isdigit c = true → lower_char c = c ∧ isalnum c = true.
Proof.
  destruct c as [[] [] [] [] [] [] [] []]; vm_compute; intros Hc;
    first [discriminate Hc | split; reflexivity].
Qed.

Lemma length_str_filter p s : (String.length (str_filter p s) ≤ String.length s)%nat.
Proof.
  induction s as [|c s IH]; simpl; [done |]. destruct (p c); simpl; lia.
Qed.

Lemma length_lower s : String.length (lower s) = String.length s.
Proof. unfold lower. induction s as [|c s IH]; simpl; [done |]. by rewrite IH. Qed.

Lemma slugify_is_slug label : is_slug (_slugify_label label) = true.
Proof.
  unfold _slugify_label, is_slug, lower. induction label as [|c s IH]; simpl; [done |].
  destruct (isalnum (lower_char c)) eqn:Hc; simpl; [|done].
  rewrite isalnum_lower_char in Hc. by rewrite Hc, IH.
Qed.

Lemma is_slug_fixed s : is_slug s = true → _slugify_label s = s.
Proof.
  unfold _slugify_label, is_slug, lower. induction s as [|c s IH]; simpl; [done |].
  intros [Hc Hs]%andb_true_iff.
  destruct (is_slug_char c Hc) as [-> ->]. by rewrite IH.
Qed.

(** X11. For an ASCII label, [_slugify_label] returns lowercase letters and
    digits only, never more characters than the label has; slugifying a
    slug changes nothing, and a label that already is lowercase letters
    and digits is its own slug. *)
Theorem slugify_label_normal_form label :
  is_ascii label = true →
  is_slug (_slugify_label label) = true
  ∧ (String.length (_slugify_label label) ≤ String.length label)%nat
  ∧ _slugify_label (_slugify_label label) = _slugify_label label
  ∧ (is_slug label = true → _slugify_label label = label).
Proof.
  intros _. split_and!.
  - apply slugify_is_slug.
  - unfold _slugify_label. rewrite <-(length_lower label). apply length_str_filter.
  - apply is_slug_fixed, slugify_is_slug.
  - apply is_slug_fixed.
Qed.

Lemma slugify_label_normal_form_witness :
  is_slug (_slugify_label "Steam User 1") = true
  ∧ (String.length (_slugify_label "Steam User 1") ≤ String.length "Steam User 1")%nat
  ∧ _slugify_label (_slugify_label "Steam User 1") = _slugify_label "Steam User 1"
  ∧ (is_slug "Steam User 1" = true → _slugify_label "Steam User 1" = "Steam User 1").
Proof. apply (slugify_label_normal_form "Steam User 1"). reflexivity. Defined.

Lemma prefix_lower n s :
  String.prefix n s = true → String.prefix (lower n) (lower s) = true.
Proof.
  unfold lower. revert s. induction n as [|a n IH]; intros [|b s]; simpl; try done.
  destruct (ascii_dec a b) as [-> | Hne]; [|done].
  intros Hp.
  destruct (ascii_dec (lower_char b) (lower_char b)); [by apply IH | done].
Qed.

Lemma contains_lower n s :
  contains n s = true → contains (lower n) (lower s) = true.
Proof.
  induction s as [|c s IH].
  - simpl. rewrite !orb_false_r. apply (prefix_lower n "").
  - cbn [contains]. intros [Hp | Hc]%orb_true_iff; apply orb_true_iff.
    + left. by apply (prefix_lower n (String c s)).
    + right. by apply IH.
Qed.

(** X12. [_guess_input_type] always returns one of the codes 0 to 10, and
    it looks for its keywords in the lowercased name: an ASCII name that
    holds "hdmi" in any mix of upper and lower case is given type 3,
    whatever else it holds. *)
Theorem guess_input_type_range_and_case name :
  0 ≤ _guess_input_type name ≤ 10
  ∧ ∀ spelled,
      is_ascii name = true →
      lower spelled = "hdmi" →
      contains spelled name = true →
      _guess_input_type name = 3.
Proof.
  split.
  - unfold _guess_input_type. cbv zeta.
    repeat match goal with |- context [if ?b then _ else _] => destruct b end; lia.
  - intros spelled _ Hlow Hin%contains_lower. rewrite Hlow in Hin.
    unfold _guess_input_type. cbv zeta. by rewrite Hin.
Qed.

(** ** The [--inputs] branch *)

Lemma enumerate_snd {A} idx (l : list A) : (enumerate idx l).*2 = l.
Proof.
  revert idx. induction l as [|x l IH]; intros idx; csimpl; [done |]. by rewrite IH.
Qed.

Lemma override_inputs_labels slugify labels :
  input_label <$> override_inputs slugify labels = labels.
Proof.
  unfold override_inputs. rewrite <-list_fmap_compose.
  rewrite <-(enumerate_snd 1 labels) at 2. by apply list_fmap_ext.
Qed.

Lemma override_inputs_elem slugify labels it :
  it ∈ override_inputs slugify labels →
  input_label it ∈ labels ∧ input_slug it = slugify (input_label it).
Proof.
  intros Hin. split.
  - rewrite <-(override_inputs_labels slugify labels). by apply list_elem_of_fmap_2.
  - apply list_elem_of_fmap in Hin as (p & -> & _). done.
Qed.

Lemma str_forall_lstrip p s : str_forall p s = true → str_forall p (lstrip s) = true.
Proof.
  induction s as [|c s IH]; simpl; [done |].
  intros [Hc Hs]%andb_true_iff. destruct (isspace c); [by apply IH |].
  simpl. by rewrite Hc, Hs.
Qed.

Lemma str_forall_rstrip p s : str_forall p s = true → str_forall p (rstrip s) = true.
Proof.
  induction s as [|c s IH]; simpl; [done |].
  intros [Hc Hs]%andb_true_iff. specialize (IH Hs).
  destruct (rstrip s) as [|d r]; [destruct (isspace c) |]; simpl in *; by rewrite ?Hc, ?IH.
Qed.


Lemma split_comma_no_comma s piece : piece ∈ split_comma s → no_comma piece = true.
Proof.
  revert piece. induction s as [|c s IH]; intros piece; simpl.
  - by intros ->%list_elem_of_singleton.
  - destruct (decide (c = ","%char)) as [-> | Hne].
    + intros [-> | Hin]%elem_of_cons; [done | by apply IH].
    + destruct (split_comma s) as [|w ws].
      * intros ->%list_elem_of_singleton. unfold no_comma. simpl.
        by rewrite bool_decide_true.
      * intros [-> | Hin]%elem_of_cons.
        -- unfold no_comma. simpl. rewrite bool_decide_true by done.
           apply (IH w). by left.
        -- apply IH. by right.
Qed.

Lemma rstrip_idem s : rstrip (rstrip s) = rstrip s.
Proof.
  induction s as [|c s IH]; simpl; [done |].
  destruct (rstrip s) as [|d r] eqn:Hr.
  - destruct (isspace c) eqn:Hc; simpl; [done |]. by rewrite Hc.
  - remember (String d r) as t eqn:Ht. simpl. rewrite IH. by subst t.
Qed.

Lemma rstrip_head c s : isspace c = false → ∃ r, rstrip (String c s) = String c r.
Proof.
  intros Hc. simpl. destruct (rstrip s); rewrite ?Hc; eauto.
Qed.

Lemma lstrip_spec s :
  lstrip s = "" ∨ ∃ c r, lstrip s = String c r ∧ isspace c = false.
Proof.
  induction s as [|c s IH]; simpl; [by left |].
  destruct (isspace c) eqn:Hc; [done |]. right. by exists c, s.
Qed.

Lemma strip_idem s : strip (strip s) = strip s.
Proof.
  unfold strip. destruct (lstrip_spec s) as [-> | (c & r & -> & Hc)]; [done |].
  destruct (rstrip_head c r Hc) as [r' Hr]. rewrite Hr. simpl lstrip. rewrite Hc.
  rewrite <-Hr. apply rstrip_idem.
Qed.



Lemma override_labels_clean inputs_arg label :
  label ∈ override_labels inputs_arg → clean_label label.
Proof.
  unfold override_labels.
  intros [Hne (piece & -> & Hpiece)%list_elem_of_fmap]%list_elem_of_filter.
  split_and!; [done | | apply strip_idem].
  apply str_forall_rstrip, str_forall_lstrip. by eapply split_comma_no_comma.
Qed.

(** X13. The inputs of the [--inputs] branch, for an ASCII argument: they
    are numbered 1, 2, ... in order; their labels are the pieces between
    the commas, stripped, the empty ones dropped, so each label is not
    empty, holds no comma and has no space at either end; and each slug is
    the slugified label. *)
Theorem cli_inputs_well_formed inputs_arg :
  is_ascii inputs_arg = true →
  input_id <$> cli_inputs inputs_arg
  = seqZ 1 (Z.of_nat (length (cli_inputs inputs_arg)))
  ∧ input_label <$> cli_inputs inputs_arg = override_labels inputs_arg
  ∧ ∀ it, it ∈ cli_inputs inputs_arg →
          clean_label (input_label it)
          ∧ input_slug it = _slugify_label (input_label it)
          ∧ is_slug (input_slug it) = true.
Proof.
  intros _. unfold cli_inputs. split_and!.
  - rewrite override_inputs_ids. do 2 f_equal.
    by rewrite <-(length_fmap input_label (override_inputs _ _)), override_inputs_labels.
  - apply override_inputs_labels.
  - intros it [Hlabel Hslug]%override_inputs_elem. split_and!.
    + by eapply override_labels_clean.
    + done.
    + rewrite Hslug. apply slugify_is_slug.
Qed.

Lemma cli_inputs_well_formed_witness :
  input_id <$> cli_inputs " Bob , , Carol W ,"
  = seqZ 1 (Z.of_nat (length (cli_inputs " Bob , , Carol W ,")))
  ∧ input_label <$> cli_inputs " Bob , , Carol W ," = override_labels " Bob , , Carol W ,"
  ∧ ∀ it, it ∈ cli_inputs " Bob , , Carol W ," →
          clean_label (input_label it)
          ∧ input_slug it = _slugify_label (input_label it)
          ∧ is_slug (input_slug it) = true.
Proof. apply (cli_inputs_well_formed " Bob , , Carol W ,"). reflexivity. Defined.

Lemma split_comma_app label rest :
  no_comma label = true →
  split_comma (label +:+ "," +:+ rest) = label :: split_comma rest.
Proof.
  unfold no_comma. induction label as [|c s IH]; simpl; [done |].
  intros [Hc Hs]%andb_true_iff. apply bool_decide_eq_true in Hc.
  rewrite decide_False by done. by rewrite IH.
Qed.

Lemma split_comma_single label : no_comma label = true → split_comma label = [label].
Proof.
  unfold no_comma. induction label as [|c s IH]; simpl; [done |].
  intros [Hc Hs]%andb_true_iff. apply bool_decide_eq_true in Hc.
  rewrite decide_False by done. by rewrite IH.
Qed.

Lemma split_comma_concat label labels :
  Forall (λ l, no_comma l = true) (label :: labels) →
  split_comma (String.concat "," (label :: labels)) = label :: labels.
Proof.
  revert label. induction labels as [|l labels IH]; intros label Hall.
  - simpl. apply split_comma_single. by apply Forall_inv in Hall.
  - apply Forall_cons in Hall as [Hlabel Hrest].
    change (String.concat "," (label :: l :: labels))
      with (label +:+ "," +:+ String.concat "," (l :: labels)).
    rewrite split_comma_app by done. by rewrite IH.
Qed.

Lemma clean_labels_kept labels :
  Forall clean_label labels → filter (λ s, s ≠ "") (strip <$> labels) = labels.
Proof.
  induction 1 as [|l labels (Hne & _ & Hstrip) _ IH]; csimpl; [done |].
  rewrite Hstrip, filter_cons_True by done. by rewrite IH.
Qed.

(** X14. Joining labels with commas and handing the result to [--inputs]
    gives the labels back, in order, provided each one is ASCII, not empty,
    free of commas and without a space at either end. *)
Theorem override_labels_round_trip labels :
  Forall (λ l, is_ascii l = true) labels →
  Forall clean_label labels →
  override_labels (String.concat "," labels) = labels.
Proof.
  intros _ Hclean. unfold override_labels. destruct labels as [|label labels]; [done |].
  rewrite split_comma_concat; [by apply clean_labels_kept |].
  eapply Forall_impl; [exact Hclean |]. by intros l (_ & Hl & _).
Qed.

Lemma override_labels_round_trip_witness :
  override_labels (String.concat "," ["Bob"; "Carol W"; "x-1"]) = ["Bob"; "Carol W"; "x-1"].
Proof.
  apply (override_labels_round_trip ["Bob"; "Carol W"; "x-1"]).
  - repeat constructor.
  - repeat constructor; discriminate.
Defined.





(** ** Writing the selection twice *)

Lemma dict_set_twice {A} k (v1 v2 : A) d :
  dict_set k v2 (dict_set k v1 d) = dict_set k v2 d.
Proof.
  induction d as [|[k' v'] d IH]; simpl.
  - by rewrite decide_True.
  - destruct (decide (k' = k)) as [-> | Hne]; simpl.
    + by rewrite decide_True.
    + by rewrite decide_False, IH.
Qed.

Lemma setitem_path_twice p leaf v1 v2 d d1 :
  setitem_path p leaf v1 d = Ok d1 →
  setitem_path p leaf v2 d1 = setitem_path p leaf v2 d.
Proof.
  revert d d1. induction p as [|k p IH]; intros d d1; simpl.
  - intros [= <-]. by rewrite dict_set_twice.
  - destruct (dict_get k d) as [[s|child]|] eqn:Hk; try done.
    destruct (setitem_path p leaf v1 child) as [child1|] eqn:Hset; [|done].
    simpl. intros [= <-]. rewrite dict_get_set_eq, (IH _ _ Hset).
    destruct (setitem_path p leaf v2 child) as [child2|]; simpl; [|done].
    by rewrite dict_set_twice.
Qed.

Section LastWrite.
Context `{codec : VdfCodec}.

(** X16. The last write wins and leaves no trace of the one before: on a
    well-formed settings file, writing account [a] and then account [b]
    (both writes going through) leaves exactly the files that writing [b]
    alone leaves. *)
Theorem set_account_last_write_wins fs registry a b :
  well_formed_registry fs registry →
  write_back_readable a registry →
  set_account b IoOk (set_account a IoOk fs).2 = set_account b IoOk fs.
Proof.
  intros Hwf Hcodec.
  destruct (set_account_written fs registry a Hwf) as (registry1 & Hset1 & Hrun1).
  destruct (set_account_written fs registry b Hwf) as (registry2 & Hset2 & Hrun2).
  rewrite Hrun1, Hrun2. simpl. unfold set_account.
  rewrite (load_file_insert _ _ _ registry1) by by apply Hcodec.
  rewrite (setitem_path_twice _ _ _ _ _ _ Hset1), Hset2. simpl.
  by rewrite insert_insert_eq.
Qed.
End LastWrite.

Lemma set_account_last_write_wins_witness :
  set_account (codec := VdfText.codec) "bob99" IoOk
    (set_account (codec := VdfText.codec) "alice" IoOk sample_files).2
  = set_account (codec := VdfText.codec) "bob99" IoOk sample_files.
Proof.
  apply (set_account_last_write_wins (codec := VdfText.codec)
           sample_files sample_registry "alice" "bob99").
  - split; [vm_compute; reflexivity | eexists; reflexivity].
  - intros registry' Hset. vm_compute in Hset. injection Hset as <-.
    vm_compute. reflexivity.
Defined.
